(** * Shader source optimiser ([main.py]): text rewriting stages

    A shallow embedding of the rewriting stages of [main.py] and of the
    part of Python's [re] module they rely on.

    Text is a list of characters.  A character is an [ascii], read as a
    code point below 256; the character classes [\s], [\w] and [\d] are
    those of Python 3 [str] patterns on that range. *)

From Stdlib Require Import Ascii String.
From Stdlib Require Import List Arith Lia Bool ZArith QArith.
Import ListNotations.

Local Open Scope nat_scope.
Local Open Scope list_scope.
Local Open Scope bool_scope.

Set Implicit Arguments.

(** ** Text *)

Definition str := list ascii.

Definition L (s : string) : str := list_ascii_of_string s.

Arguments L : simpl never.

Definition nl : ascii := ascii_of_nat 10.

Definition str_eqb (a b : str) : bool :=
  if list_eq_dec ascii_dec a b then true else false.

(** Python's [s[a:b]] for indices [0 <= a] and [0 <= b]: empty when
    [b <= a], cut at the end of [s]. *)
Definition slice (s : str) (a b : nat) : str := firstn (b - a) (skipn a s).

(** [s[a:]] *)
Definition slice_from (s : str) (a : nat) : str := skipn a s.

(** [sep.join(l)] *)
Fixpoint join (sep : str) (l : list str) : str :=
  match l with
  | [] => []
  | [x] => x
  | x :: rest => x ++ sep ++ join sep rest
  end.

(** [s.startswith(p)] *)
Fixpoint starts_with (p s : str) : bool :=
  match p, s with
  | [], _ => true
  | _ :: _, [] => false
  | a :: p', b :: s' => Ascii.eqb a b && starts_with p' s'
  end.

(** [s.replace(old, new)] for a non-empty [old]: every occurrence found
    scanning left to right is replaced, occurrences do not overlap.
    [skip] counts the characters of an occurrence still to be dropped. *)
Fixpoint replace_from (old new : str) (skip : nat) (s : str) : str :=
  match s with
  | [] => []
  | c :: t =>
      match skip with
      | S k => replace_from old new k t
      | O => if starts_with old s
             then new ++ replace_from old new (length old - 1) t
             else c :: replace_from old new 0 t
      end
  end.

Definition replace (old new s : str) : str := replace_from old new 0 s.

(** ** The part of Python's [re] module that [main.py] uses *)

Module Re.

(** ** Character classes of [re] *)

Definition is_space (c : ascii) : bool :=
  let n := nat_of_ascii c in
  ((9 <=? n) && (n <=? 13)) || ((28 <=? n) && (n <=? 32))
  || (n =? 133) || (n =? 160).

Definition is_digit (c : ascii) : bool :=
  let n := nat_of_ascii c in (48 <=? n) && (n <=? 57).

Definition is_word (c : ascii) : bool :=
  let n := nat_of_ascii c in
  ((48 <=? n) && (n <=? 57)) || ((65 <=? n) && (n <=? 90))
  || (n =? 95) || ((97 <=? n) && (n <=? 122))
  || (n =? 170) || (n =? 178) || (n =? 179) || (n =? 181)
  || (n =? 185) || (n =? 186) || ((188 <=? n) && (n <=? 190))
  || ((192 <=? n) && (n <=? 214)) || ((216 <=? n) && (n <=? 246))
  || (248 <=? n).

Inductive cset : Type :=
| CLit (c : ascii)             (* a literal character *)
| CSpace                       (* \s *)
| CWord                        (* \w *)
| CDigit                       (* \d *)
| CDot                         (* .  : anything but a newline *)
| CNoneOf (l : list ascii).    (* [^...] *)

Fixpoint mem_ascii (c : ascii) (l : list ascii) : bool :=
  match l with
  | [] => false
  | d :: l' => Ascii.eqb c d || mem_ascii c l'
  end.

Definition in_cset (cs : cset) (c : ascii) : bool :=
  match cs with
  | CLit d => Ascii.eqb c d
  | CSpace => is_space c
  | CWord => is_word c
  | CDigit => is_digit c
  | CDot => negb (Ascii.eqb c nl)
  | CNoneOf l => negb (mem_ascii c l)
  end.

(** ** Regular expressions and the backtracking matcher *)

Inductive regex : Type :=
| Eps
| Chr (cs : cset)
| Seq (a b : regex)
| Alt (a b : regex)            (* a|b, [a] tried first *)
| Star (a : regex)             (* a*, greedy *)
| Grp (i : nat) (a : regex)    (* capturing group number [i] *)
| Bol                          (* ^ *)
| Eol                          (* $ *)
| Wordb.                       (* \b *)

Definition Plus (a : regex) : regex := Seq a (Star a).
Definition Opt (a : regex) : regex := Alt a Eps.

Fixpoint lit_chars (l : str) : regex :=
  match l with
  | [] => Eps
  | c :: t => Seq (Chr (CLit c)) (lit_chars t)
  end.

Definition lit (s : string) : regex := lit_chars (L s).

Fixpoint seqs (l : list regex) : regex :=
  match l with
  | [] => Eps
  | [a] => a
  | a :: t => Seq a (seqs t)
  end.

(** The matcher's cursor: the character before it ([None] at the start
    of the text), the text after it, and the groups captured so far
    (latest first). *)
Record mstate : Type := MState {
  ms_prev : option ascii;
  ms_rest : str;
  ms_caps : list (nat * str)
}.

Definition opt_word (o : option ascii) : bool :=
  match o with Some c => is_word c | None => false end.

Definition at_boundary (st : mstate) : bool :=
  xorb (opt_word (ms_prev st)) (opt_word (hd_error (ms_rest st))).

(** Greedy repetition: one more iteration is tried before stopping; an
    iteration that consumes nothing is not repeated.  [fuel] bounds the
    number of iterations by the length of the remaining text. *)
Fixpoint star_iter (step : mstate -> list mstate) (fuel : nat) (st : mstate)
  : list mstate :=
  match fuel with
  | O => [st]
  | S f =>
      flat_map (fun st' =>
                  if length (ms_rest st') <? length (ms_rest st)
                  then star_iter step f st' else [])
               (step st)
      ++ [st]
  end.

(** [rmatch r st] lists the cursors at which a match of [r] starting at
    [st] can end, in the order in which a backtracking matcher tries
    them. *)
Fixpoint rmatch (r : regex) (st : mstate) : list mstate :=
  match r with
  | Eps => [st]
  | Chr cs =>
      match ms_rest st with
      | c :: t => if in_cset cs c then [MState (Some c) t (ms_caps st)] else []
      | [] => []
      end
  | Seq a b => flat_map (rmatch b) (rmatch a st)
  | Alt a b => rmatch a st ++ rmatch b st
  | Star a => star_iter (rmatch a) (length (ms_rest st)) st
  | Grp i a =>
      map (fun st' =>
             MState (ms_prev st') (ms_rest st')
               ((i, firstn (length (ms_rest st) - length (ms_rest st'))
                           (ms_rest st)) :: ms_caps st'))
          (rmatch a st)
  | Bol => match ms_prev st with None => [st] | Some _ => [] end
  | Eol =>
      match ms_rest st with
      | [] => [st]
      | [c] => if Ascii.eqb c nl then [st] else []
      | _ => []
      end
  | Wordb => if at_boundary st then [st] else []
  end.

(** One match attempt at the cursor; with [must_advance] an empty match
    is refused and the matcher backtracks. *)
Definition match_here (r : regex) (must_advance : bool)
           (prev : option ascii) (rest : str) : option mstate :=
  find (fun st' => negb (must_advance && (length (ms_rest st') =? length rest)))
       (rmatch r (MState prev rest [])).

(** A match object: [start()], [end()], [group()] and the captures. *)
Record rmatch_obj : Type := Match {
  m_start : nat;
  m_end : nat;
  m_text : str;
  m_caps : list (nat * str)
}.

Fixpoint lookup_cap (i : nat) (caps : list (nat * str)) : str :=
  match caps with
  | [] => []
  | (j, v) :: rest => if i =? j then v else lookup_cap i rest
  end.

(** [match.group(i)] for [i >= 1] *)
Definition group (m : rmatch_obj) (i : nat) : str := lookup_cap i (m_caps m).

(** The search loop of [re.finditer]: leftmost match from the cursor,
    then on from its end; after an empty match the next attempt at the
    same place must advance. *)
Fixpoint scan (r : regex) (fuel : nat) (must_advance : bool)
         (prev : option ascii) (pos : nat) (rest : str) : list rmatch_obj :=
  match fuel with
  | O => []
  | S f =>
      match match_here r must_advance prev rest with
      | Some st' =>
          let n := length rest - length (ms_rest st') in
          Match pos (pos + n) (firstn n rest) (ms_caps st')
          :: scan r f (n =? 0) (ms_prev st') (pos + n) (ms_rest st')
      | None =>
          match rest with
          | [] => []
          | c :: t => scan r f false (Some c) (S pos) t
          end
      end
  end.

Definition finditer (r : regex) (s : str) : list rmatch_obj :=
  scan r (2 * length s + 2) false None 0 s.

(** [re.sub(r, repl, s)] for a replacement without group references. *)
Fixpoint sub_loop (s repl : str) (ms : list rmatch_obj) (out : str) (i : nat)
  : str :=
  match ms with
  | [] => out ++ slice_from s i
  | m :: ms' => sub_loop s repl ms' (out ++ slice s i (m_start m) ++ repl) (m_end m)
  end.

Definition re_sub (r : regex) (repl s : str) : str :=
  sub_loop s repl (finditer r s) [] 0.

End Re.

Import Re.

(** ** The patterns of [main.py] *)

Definition ch (s : string) : regex :=
  match L s with
  | [c] => Chr (CLit c)
  | _ => Eps
  end.

Definition ws : regex := Chr CSpace.
Definition word : regex := Chr CWord.

(** [//.*] *)
Definition line_comment_pattern : regex :=
  seqs [ch "/"; ch "/"; Star (Chr CDot)].

(** [/\*[^*]*\*+(?:[^/*][^*]*\*+)*/] *)
Definition block_comment_pattern : regex :=
  seqs [ch "/"; ch "*"; Star (Chr (CNoneOf (L "*"))); Plus (ch "*");
        Star (seqs [Chr (CNoneOf (L "/*")); Star (Chr (CNoneOf (L "*")));
                    Plus (ch "*")]);
        ch "/"].

(** [^\s+|\s+$] *)
Definition trim_pattern : regex :=
  Alt (Seq Bol (Plus ws)) (Seq (Plus ws) Eol).

(** [\s+] *)
Definition spaces_pattern : regex := Plus ws.

(** [\n\s*\n] *)
Definition empty_line_pattern : regex :=
  seqs [Chr (CLit nl); Star ws; Chr (CLit nl)].

(** [\b(\w+)\s+(\w+)\s*\[?\s*(\d* )\s*\]?\s*;], the third group being [\d*] *)
Definition var_decl_pattern : regex :=
  seqs [Wordb; Grp 1 (Plus word); Plus ws; Grp 2 (Plus word); Star ws;
        Opt (ch "["); Star ws; Grp 3 (Star (Chr CDigit)); Star ws;
        Opt (ch "]"); Star ws; ch ";"].

(** [\b(\w+)\s+(\w+)\s*\([^)]*\)\s*\{] *)
Definition function_pattern : regex :=
  seqs [Wordb; Grp 1 (Plus word); Plus ws; Grp 2 (Plus word); Star ws;
        ch "("; Star (Chr (CNoneOf (L ")"))); ch ")"; Star ws; ch "{"].

(** [\bfor\s*\([^)]*\)\s*\{] *)
Definition loop_pattern : regex :=
  seqs [Wordb; lit "for"; Star ws;
        ch "("; Star (Chr (CNoneOf (L ")"))); ch ")"; Star ws; ch "{"].

(** [\buniform\s+(\w+)\s+(\w+)\s*\[?\s*(\d* )\s*\]?\s*;], the third group being [\d*] *)
Definition uniform_pattern : regex :=
  seqs [Wordb; lit "uniform"; Plus ws; Grp 1 (Plus word); Plus ws;
        Grp 2 (Plus word); Star ws;
        Opt (ch "["); Star ws; Grp 3 (Star (Chr CDigit)); Star ws;
        Opt (ch "]"); Star ws; ch ";"].

(** [\btexture\([^)]*\)] *)
Definition texture_pattern : regex :=
  seqs [Wordb; lit "texture"; ch "("; Star (Chr (CNoneOf (L ")"))); ch ")"].

(** ** The stages *)

Definition remove_comments (shader_code : str) : str :=
  let shader_code := re_sub line_comment_pattern [] shader_code in
  let shader_code := re_sub block_comment_pattern [] shader_code in
  shader_code.

Definition remove_whitespace (shader_code : str) : str :=
  let shader_code := re_sub trim_pattern [] shader_code in
  let shader_code := re_sub spaces_pattern (L " ") shader_code in
  shader_code.

(** The [defaultdict(list)] of [remove_redundant_variables]. *)
Definition ddict := list (str * list str).

Fixpoint dd_get (key : str) (d : ddict) : list str :=
  match d with
  | [] => []
  | (k, v) :: d' => if str_eqb key k then v else dd_get key d'
  end.

(** [d[key].append(x)] *)
Fixpoint dd_append (key x : str) (d : ddict) : ddict :=
  match d with
  | [] => [(key, [x])]
  | (k, v) :: d' =>
      if str_eqb key k then (k, v ++ [x]) :: d' else (k, v) :: dd_append key x d'
  end.

Fixpoint redundant_loop (shader_code : str) (ms : list rmatch_obj)
         (variable_declarations : ddict) (new_shader_code : str) (start : nat)
  : str * nat :=
  match ms with
  | [] => (new_shader_code, start)
  | m :: ms' =>
      let var_type := group m 1 in
      let var_name := group m 2 in
      let key := var_type ++ L " " ++ var_name in
      let variable_declarations := dd_append key (m_text m) variable_declarations in
      let new_shader_code := new_shader_code ++ slice shader_code start (m_start m) in
      let new_shader_code :=
        new_shader_code ++ nth 0 (dd_get key variable_declarations) [] in
      redundant_loop shader_code ms' variable_declarations new_shader_code (m_end m)
  end.

Definition remove_redundant_variables (shader_code : str) : str :=
  let var_decl_matches := finditer var_decl_pattern shader_code in
  let '(new_shader_code, start) :=
    redundant_loop shader_code var_decl_matches [] [] 0 in
  new_shader_code ++ slice_from shader_code start.

(** The accumulators of [combine_variable_declarations]. *)
Record combine_state : Type := CState {
  new_code : str;
  var_declarations : list str;
  current_var_type : str;
  current_var_names : str;
  current_var_sizes : str;
  cs_start : nat
}.

(** [f"{current_var_type} {current_var_names}{current_var_sizes if current_var_sizes else ''};"] *)
Definition flush_text (ty names sizes : str) : str :=
  ty ++ L " " ++ names ++ (match sizes with [] => [] | _ => sizes end) ++ L ";".

Definition combine_step (shader_code : str) (st : combine_state) (m : rmatch_obj)
  : combine_state :=
  let var_type := group m 1 in
  let var_name := group m 2 in
  let var_size := group m 3 in
  let '(decls, ty, names, sizes) :=
    if str_eqb (current_var_type st) [] then
      (var_declarations st, var_type, var_name, var_size)
    else if str_eqb (current_var_type st) var_type then
      (var_declarations st, current_var_type st,
       current_var_names st ++ L ", " ++ var_name,
       match var_size with
       | [] => current_var_sizes st
       | _ => current_var_sizes st ++ L ", " ++ var_size
       end)
    else
      (var_declarations st
         ++ [flush_text (current_var_type st) (current_var_names st)
                        (current_var_sizes st)],
       var_type, var_name, var_size) in
  CState (new_code st ++ slice shader_code (cs_start st) (m_start m))
         decls ty names sizes (m_end m).

Definition combine_loop (shader_code : str) (ms : list rmatch_obj)
           (st : combine_state) : combine_state :=
  fold_left (combine_step shader_code) ms st.

Definition combine_variable_declarations (shader_code : str) : str :=
  let var_decl_matches := finditer var_decl_pattern shader_code in
  let st := combine_loop shader_code var_decl_matches (CState [] [] [] [] [] 0) in
  let decls :=
    match current_var_type st with
    | [] => var_declarations st
    | _ => var_declarations st
             ++ [flush_text (current_var_type st) (current_var_names st)
                            (current_var_sizes st)]
    end in
  new_code st ++ join [nl] decls ++ [nl] ++ slice_from shader_code (cs_start st).

Definition remove_empty_lines (shader_code : str) : str :=
  re_sub empty_line_pattern [nl] shader_code.

(** The [while] loop of [find_function_body] and [find_loop_body];
    [rest] is the text from [end_index] on, so the loop stops at its
    end. *)
Fixpoint brace_loop (open_braces : Z) (end_index : nat) (rest : str) : nat :=
  match rest with
  | [] => end_index
  | c :: t =>
      if (0 <? open_braces)%Z then
        let open_braces :=
          if Ascii.eqb c "{" then (open_braces + 1)%Z
          else if Ascii.eqb c "}" then (open_braces - 1)%Z
          else open_braces in
        brace_loop open_braces (end_index + 1) t
      else end_index
  end.

Definition find_function_body (shader_code : str) (start_index : nat) : str :=
  let end_index := brace_loop 1 start_index (slice_from shader_code start_index) in
  slice shader_code start_index end_index.

Definition find_loop_body (shader_code : str) (start_index : nat) : str :=
  let end_index := brace_loop 1 start_index (slice_from shader_code start_index) in
  slice shader_code start_index end_index.

Fixpoint inline_loop (shader_code : str) (ms : list rmatch_obj)
         (new_shader_code : str) (start : nat) : str * nat :=
  match ms with
  | [] => (new_shader_code, start)
  | m :: ms' =>
      let function_body := find_function_body shader_code (m_end m) in
      if length function_body <? 50 then
        let new_shader_code := new_shader_code ++ slice shader_code start (m_start m) in
        let new_shader_code := new_shader_code ++ function_body in
        inline_loop shader_code ms' new_shader_code
                    (m_end m + length function_body + 1)
      else
        let new_shader_code := new_shader_code ++ slice shader_code start (m_end m + 1) in
        inline_loop shader_code ms' new_shader_code (m_end m + 1)
  end.

Definition inline_functions (shader_code : str) : str :=
  let function_matches := finditer function_pattern shader_code in
  let '(new_shader_code, start) := inline_loop shader_code function_matches [] 0 in
  new_shader_code ++ slice_from shader_code start.

Definition loop_header_literal : str := L "for (int i = 0; i < 10; i++)".

Definition spaces (n : nat) : str := repeat " "%char n.

(** The triple-quoted replacement text of [unroll_loop]. *)
Definition unrolled_block : str :=
  [nl] ++ spaces 8 ++ L "{" ++ [nl] ++ spaces 12 ++ L "// Unrolled loop body"
  ++ [nl] ++ spaces 8 ++ L "}" ++ [nl] ++ spaces 4.

Definition unroll_loop (loop_body : str) : str :=
  replace loop_header_literal unrolled_block loop_body.

Fixpoint unroll_loops_loop (shader_code : str) (ms : list rmatch_obj)
         (new_shader_code : str) (start : nat) : str * nat :=
  match ms with
  | [] => (new_shader_code, start)
  | m :: ms' =>
      let loop_body := find_loop_body shader_code (m_end m) in
      if length loop_body <? 50 then
        let new_shader_code := new_shader_code ++ slice shader_code start (m_start m) in
        let new_shader_code := new_shader_code ++ unroll_loop loop_body in
        unroll_loops_loop shader_code ms' new_shader_code
                          (m_end m + length loop_body + 1)
      else
        let new_shader_code := new_shader_code ++ slice shader_code start (m_end m + 1) in
        unroll_loops_loop shader_code ms' new_shader_code (m_end m + 1)
  end.

Definition unroll_loops (shader_code : str) : str :=
  let loop_matches := finditer loop_pattern shader_code in
  let '(new_shader_code, start) := unroll_loops_loop shader_code loop_matches [] 0 in
  new_shader_code ++ slice_from shader_code start.

(** The table of [get_uniform_value]; [None] is Python's [None]. *)
Definition uniform_values : list (str * str) :=
  [ (L "u_time", L "0.0");
    (L "u_resolution", L "vec2(1024.0, 768.0)") ].

Fixpoint dict_get (key : str) (d : list (str * str)) : option str :=
  match d with
  | [] => None
  | (k, v) :: d' => if str_eqb key k then Some v else dict_get key d'
  end.

Definition get_uniform_value (uniform_name : str) : option str :=
  dict_get uniform_name uniform_values.

Fixpoint uniform_loop (shader_code : str) (ms : list rmatch_obj)
         (new_shader_code : str) (start : nat) : str * nat :=
  match ms with
  | [] => (new_shader_code, start)
  | m :: ms' =>
      let uniform_type := group m 1 in
      let uniform_name := group m 2 in
      match get_uniform_value uniform_name with
      | Some uniform_value =>
          let new_shader_code := new_shader_code ++ slice shader_code start (m_start m) in
          let new_shader_code :=
            new_shader_code
              ++ (uniform_type ++ L " " ++ uniform_name ++ L " = " ++ uniform_value ++ L ";") in
          uniform_loop shader_code ms' new_shader_code (m_end m)
      | None => uniform_loop shader_code ms' new_shader_code start
      end
  end.

Definition replace_uniform_variables (shader_code : str) : str :=
  let uniform_matches := finditer uniform_pattern shader_code in
  let '(new_shader_code, start) := uniform_loop shader_code uniform_matches [] 0 in
  new_shader_code ++ slice_from shader_code start.

Definition optimize_texture_lookup (texture_call : str) : str := texture_call.

Fixpoint texture_loop (shader_code : str) (ms : list rmatch_obj)
         (new_shader_code : str) (start : nat) : str * nat :=
  match ms with
  | [] => (new_shader_code, start)
  | m :: ms' =>
      let texture_call := m_text m in
      let optimized_call := optimize_texture_lookup texture_call in
      if negb (str_eqb optimized_call texture_call) then
        let new_shader_code := new_shader_code ++ slice shader_code start (m_start m) in
        let new_shader_code := new_shader_code ++ optimized_call in
        texture_loop shader_code ms' new_shader_code (m_end m)
      else
        let new_shader_code := new_shader_code ++ slice shader_code start (m_end m) in
        texture_loop shader_code ms' new_shader_code (m_end m)
  end.

Definition optimize_texture_lookups (shader_code : str) : str :=
  let texture_matches := finditer texture_pattern shader_code in
  let '(new_shader_code, start) := texture_loop shader_code texture_matches [] 0 in
  new_shader_code ++ slice_from shader_code start.

(** ** The driver *)

(** The nine stages of [optimize_shader], in its order. *)
Definition run_stages (shader_code : str) : str :=
  let optimized_code := remove_comments shader_code in
  let optimized_code := remove_whitespace optimized_code in
  let optimized_code := remove_redundant_variables optimized_code in
  let optimized_code := combine_variable_declarations optimized_code in
  let optimized_code := remove_empty_lines optimized_code in
  let optimized_code := inline_functions optimized_code in
  let optimized_code := unroll_loops optimized_code in
  let optimized_code := replace_uniform_variables optimized_code in
  let optimized_code := optimize_texture_lookups optimized_code in
  optimized_code.

(** What a run of [optimize_shader] on the text of the input file ends
    in: the optimized text with the two sizes and the quotient
    [100 * (initial_size - optimized_size) / initial_size], or the
    exception of the division.  The quotient is kept exact; its rounding
    to two decimals by [round] on binary floating point is not part of
    the model, and neither are the file operations. *)
Inductive outcome : Type :=
| Returned (optimized_code : str) (initial_size optimized_size : nat) (boost : Q)
| ZeroDivisionError.

Definition optimize_shader (shader_code : str) : outcome :=
  let initial_size := length shader_code in
  let optimized_code := run_stages shader_code in
  let optimized_size := length optimized_code in
  match initial_size with
  | O => ZeroDivisionError
  | S _ =>
      Returned optimized_code initial_size optimized_size
        (Qmake (100 * (Z.of_nat initial_size - Z.of_nat optimized_size))
               (Pos.of_nat initial_size))
  end.

(** ** Spans and substitution *)

(** [splice s lo subs]: the text of [s] from [lo] on, with each span
    [(a, b)] of [subs] replaced by the text given with it. *)
Fixpoint splice (s : str) (lo : nat) (subs : list (nat * nat * str)) : str :=
  match subs with
  | [] => slice_from s lo
  | (a, b, r) :: rest => slice s lo a ++ r ++ splice s b rest
  end.

(** The span of a match with its own text. *)
Definition own (m : rmatch_obj) : nat * nat * str :=
  (m_start m, m_end m, m_text m).

(** The span of a match with a replacement text computed from it. *)
Definition with_text (f : rmatch_obj -> str) (m : rmatch_obj) : nat * nat * str :=
  (m_start m, m_end m, f m).

(** Matches in text order from [lo] on: each lies inside [s], starts
    where the one before ended or later, and carries the text of its
    span. *)
Inductive spans (s : str) : nat -> list rmatch_obj -> Prop :=
| spans_nil : forall lo, spans s lo []
| spans_cons : forall lo m ms,
    lo <= m_start m -> m_start m <= m_end m -> m_end m <= length s ->
    m_text m = slice s (m_start m) (m_end m) ->
    spans s (m_end m) ms ->
    spans s lo (m :: ms).

(** The output of the substitution loop of [re.sub], cursor by cursor. *)
Fixpoint subscan (r : regex) (repl : str) (fuel : nat) (must_advance : bool)
         (prev : option ascii) (rest : str) : str :=
  match fuel with
  | O => rest
  | S f =>
      match match_here r must_advance prev rest with
      | Some st' =>
          repl ++ subscan r repl f (length rest - length (ms_rest st') =? 0)
                          (ms_prev st') (ms_rest st')
      | None =>
          match rest with
          | [] => []
          | c :: t => c :: subscan r repl f false (Some c) t
          end
      end
  end.

Definition sub_str (r : regex) (repl : str) (prev : option ascii) (rest : str)
  : str :=
  subscan r repl (2 * length rest + 2) false prev rest.

(** ** Uniform folding, match by match *)

(** The name captured by a uniform declaration is in the table. *)
Definition is_known (m : rmatch_obj) : bool :=
  match get_uniform_value (group m 2) with
  | Some _ => true
  | None => false
  end.

(** What stands in the output for a matched uniform declaration:
    [<type> <name> = <value>;] when the name is in the table, the
    declaration itself when it is not. *)
Definition folded_decl (m : rmatch_obj) : str :=
  match get_uniform_value (group m 2) with
  | Some v => group m 1 ++ L " " ++ group m 2 ++ L " = " ++ v ++ L ";"
  | None => m_text m
  end.

(** ** Declaration dedup, match by match *)

(** The key of a declaration: its type name and variable name. *)
Definition decl_key (m : rmatch_obj) : str := group m 1 ++ L " " ++ group m 2.

Definition same_key (m m' : rmatch_obj) : bool :=
  str_eqb (decl_key m) (decl_key m').

(** The text of the first match of [ms] with the key of [m]. *)
Definition first_text (ms : list rmatch_obj) (m : rmatch_obj) : str :=
  match find (same_key m) ms with
  | Some m' => m_text m'
  | None => m_text m
  end.

(** The dictionary holds, under each key, the texts of the matches seen
    so far with that key, in order. *)
Definition dd_holds (d : ddict) (seen : list rmatch_obj) : Prop :=
  forall k, dd_get k d
            = map m_text (filter (fun m' => str_eqb k (decl_key m')) seen).

(** ** Declaration merge, group by group *)

(** Maximal runs of consecutive matches with the same type name. *)
Fixpoint runs (ms : list rmatch_obj) : list (list rmatch_obj) :=
  match ms with
  | [] => []
  | m :: ms' =>
      match runs ms' with
      | (m' :: g) :: gs =>
          if str_eqb (group m 1) (group m' 1)
          then (m :: m' :: g) :: gs
          else [m] :: (m' :: g) :: gs
      | _ => [[m]]
      end
  end.

(** The array sizes of a group as they are appended: the size captured
    by the first declaration, then [, size] for each later declaration
    that has one. *)
Definition sizes_part (g : list rmatch_obj) : str :=
  match g with
  | [] => []
  | m :: rest =>
      group m 3
      ++ concat (map (fun x => match group x 3 with
                               | [] => []
                               | sz => L ", " ++ sz
                               end) rest)
  end.

(** A group flushed as [type name1, name2, ...;]. *)
Definition merged_decl (g : list rmatch_obj) : str :=
  match g with
  | [] => []
  | m :: _ =>
      group m 1 ++ L " " ++ join (L ", ") (map (fun x => group x 2) g)
      ++ sizes_part g ++ L ";"
  end.

(** The text before the first match and between consecutive matches. *)
Fixpoint gaps (s : str) (lo : nat) (ms : list rmatch_obj) : str :=
  match ms with
  | [] => []
  | m :: ms' => slice s lo (m_start m) ++ gaps s (m_end m) ms'
  end.

(** Where the last match ends ([lo] when there is none). *)
Fixpoint last_end (lo : nat) (ms : list rmatch_obj) : nat :=
  match ms with
  | [] => lo
  | m :: ms' => last_end (m_end m) ms'
  end.

(** The merged declarations as one block. *)
Definition merged_block (ms : list rmatch_obj) : str :=
  join [nl] (map merged_decl (runs ms)).

(** The output the merge stage would have if the text between matches
    were dropped: the block, then only the text after the last match. *)
Definition block_then_tail (s : str) : str :=
  merged_block (finditer var_decl_pattern s) ++ [nl]
  ++ slice_from s (last_end 0 (finditer var_decl_pattern s)).

(** All matches of a group have the type name [ty]. *)
Definition same_type (ty : str) (g : list rmatch_obj) : Prop :=
  Forall (fun m => group m 1 = ty) g.

(** The group numbers a pattern can capture. *)
Fixpoint groups_of (r : regex) : list nat :=
  match r with
  | Seq a b | Alt a b => groups_of a ++ groups_of b
  | Star a => groups_of a
  | Grp i a => i :: groups_of a
  | _ => []
  end.

(** ** Brace scanning, as the contract words it *)

(** The index of the first character at which the depth, counted from
    [depth] before [rest], reaches 0. *)
Fixpoint close_index (depth : Z) (i : nat) (rest : str) : option nat :=
  match rest with
  | [] => None
  | c :: t =>
      let depth :=
        if Ascii.eqb c "{" then (depth + 1)%Z
        else if Ascii.eqb c "}" then (depth - 1)%Z
        else depth in
      if (depth =? 0)%Z then Some i else close_index depth (i + 1) t
  end.

(** The body as the contract describes it: from the offset up to,
    excluding, the position where the depth reaches 0; to the end of the
    text when it never does. *)
Definition body_upto_close (shader_code : str) (start_index : nat) : str :=
  match close_index 1 start_index (slice_from shader_code start_index) with
  | Some j => slice shader_code start_index j
  | None => slice_from shader_code start_index
  end.

(** [old in s] *)
Fixpoint occurs (old s : str) : bool :=
  match s with
  | [] => starts_with old []
  | _ :: t => starts_with old s || occurs old t
  end.

(** The body of every match is at least 50 characters long. *)
Definition all_long (body : str -> nat -> str) (s : str) (ms : list rmatch_obj)
  : Prop :=
  Forall (fun m => 50 <= length (body s (m_end m))) ms.

(** [st'] has the captures of [st] and, before them, captures of groups
    among [gs]. *)
Definition caps_extend (gs : list nat) (st st' : mstate) : Prop :=
  exists extra, ms_caps st' = extra ++ ms_caps st
                /\ Forall (fun p => In (fst p) gs) extra.

(** The accumulators of the merge loop describe the group [cur] being
    built, after the declarations [decls] already flushed. *)
Definition tracks (st : combine_state) (decls : list str) (cur : list rmatch_obj)
  : Prop :=
  cur <> [] /\ current_var_type st <> []
  /\ same_type (current_var_type st) cur
  /\ current_var_names st = join (L ", ") (map (fun x => group x 2) cur)
  /\ current_var_sizes st = sizes_part cur
  /\ var_declarations st = decls.

(** The declarations joined at the end of [combine_variable_declarations]. *)
Definition final_decls (st : combine_state) : list str :=
  match current_var_type st with
  | [] => var_declarations st
  | _ => var_declarations st
           ++ [flush_text (current_var_type st) (current_var_names st)
                          (current_var_sizes st)]
  end.

(** ** The lexical stripper *)

(** The Lexical-Stripper: comment removal, then whitespace
    normalization. *)
Definition strip (T : str) : str := remove_whitespace (remove_comments T).

(** The cursors after each number of characters of the class [cs] taken
    from [rest], longest run first: what [cs*] tries. *)
Fixpoint run_states (cs : cset) (prev : option ascii) (rest : str)
         (caps : list (nat * str)) : list mstate :=
  match rest with
  | c :: t =>
      if in_cset cs c
      then run_states cs (Some c) t caps ++ [MState prev rest caps]
      else [MState prev rest caps]
  | [] => [MState prev rest caps]
  end.

(** The cursor after the longest run of characters of [cs]. *)
Fixpoint run_end (cs : cset) (prev : option ascii) (rest : str)
  : option ascii * str :=
  match rest with
  | c :: t => if in_cset cs c then run_end cs (Some c) t else (prev, rest)
  | [] => (prev, rest)
  end.

(** Every match of the pattern consumes at least one character. *)
Definition never_empty (r : regex) : Prop :=
  forall prev rest st',
    In st' (rmatch r (MState prev rest [])) ->
    length (ms_rest st') < length rest.

(** The text starts with the character [c]. *)
Definition hd_is (c : ascii) (s : str) : bool :=
  match s with
  | x :: _ => Ascii.eqb x c
  | [] => false
  end.

(** The text contains [//]. *)
Definition has_dslash (s : str) : bool := occurs (L "//") s.

(** The text after the first [*/] of [u]. *)
Fixpoint close_after (u : str) : option str :=
  match u with
  | [] => None
  | c :: t =>
      if Ascii.eqb c "*" && hd_is "/" t then Some (skipn 1 t) else close_after t
  end.

(** A block comment starts here: [/*], then a [*/] after it; the text
    after the comment. *)
Definition block_at (s : str) : option str :=
  match s with
  | c :: d :: u =>
      if Ascii.eqb c "/" && Ascii.eqb d "*" then close_after u else None
  | _ => None
  end.

(** A block comment starts somewhere in the text. *)
Fixpoint has_block (s : str) : bool :=
  match s with
  | [] => false
  | _ :: t =>
      match block_at s with
      | Some _ => true
      | None => has_block t
      end
  end.

(** The parts of [block_comment_pattern]. *)
Definition bc_nostar : cset := CNoneOf (L "*").
Definition bc_star : cset := CLit "*".

(** [[^/*][^*]*\*+] *)
Definition bc_group : regex :=
  Seq (Chr (CNoneOf (L "/*"))) (Seq (Star (Chr bc_nostar)) (Plus (Chr bc_star))).

(** [(?:[^/*][^*]*\*+)*/] *)
Definition bc_tail : regex := Seq (Star bc_group) (Chr (CLit "/")).

(** [[^*]*\*+(?:[^/*][^*]*\*+)*/], what follows the opening [/*] *)
Definition bc_after : regex :=
  Seq (Star (Chr bc_nostar)) (Seq (Plus (Chr bc_star)) bc_tail).

(** The text starts with a whitespace character. *)
Definition hd_space (s : str) : bool :=
  match s with
  | c :: _ => is_space c
  | [] => false
  end.

(** The text after the whitespace run that follows the character [c]. *)
Definition after_spaces (c : ascii) (t : str) : str :=
  snd (run_end CSpace (Some c) t).

(** What [re.sub] with [trim_pattern] leaves of a text that is not at
    the start of the input: a whitespace run reaching the end is
    dropped. *)
Fixpoint trim_rest (s : str) : str :=
  match s with
  | [] => []
  | c :: t =>
      if is_space c
      then match after_spaces c t with
           | [] => []
           | _ => c :: trim_rest t
           end
      else c :: trim_rest t
  end.

(** No whitespace run reaches the end of the text. *)
Fixpoint no_trail (s : str) : bool :=
  match s with
  | [] => true
  | c :: t =>
      (if is_space c
       then match after_spaces c t with [] => false | _ => true end
       else true)
      && no_trail t
  end.

(** Every whitespace character is a single space followed by a
    character that is not whitespace. *)
Fixpoint single_spaces (s : str) : bool :=
  match s with
  | [] => true
  | c :: t =>
      (if is_space c
       then Ascii.eqb c " " && negb (hd_space t)
            && match t with [] => false | _ => true end
       else true)
      && single_spaces t
  end.

(** Whitespace-normalized text. *)
Definition normalized (s : str) : bool := negb (hd_space s) && single_spaces s.

(** [a] is what is left of [b] after some of its first characters. *)
Definition suffix_of (a b : str) : Prop := exists w, b = w ++ a.

(** ** Newlines and blank lines *)

(** The text contains no newline. *)
Definition no_nl (s : str) : bool := forallb (fun c => negb (Ascii.eqb c nl)) s.

(** A newline lies ahead in the whitespace run at the start of the
    text. *)
Fixpoint nl_ahead (t : str) : bool :=
  match t with
  | [] => false
  | c :: t' => is_space c && (Ascii.eqb c nl || nl_ahead t')
  end.

(** The text has no blank line: no newline is followed, after
    whitespace only, by another newline. *)
Fixpoint calm (s : str) : bool :=
  match s with
  | [] => true
  | c :: t => (if Ascii.eqb c nl then negb (nl_ahead t) else true) && calm t
  end.

(** [st'] has the captures of [st] and, before them, captures made of
    characters of the text ahead of [st]. *)
Definition caps_from_text (st st' : mstate) : Prop :=
  exists extra, ms_caps st' = extra ++ ms_caps st
                /\ Forall (fun p => incl (snd p) (ms_rest st)) extra.

(** The number of opening braces of a text minus the number of its
    closing braces. *)
Fixpoint brace_balance (s : str) : Z :=
  match s with
  | [] => 0
  | c :: t =>
      ((if Ascii.eqb c "{" then 1 else if Ascii.eqb c "}" then -1 else 0)
       + brace_balance t)%Z
  end.

(** * Properties *)

(** The base case of an induction on a bound on the length of a text:
    the text is empty. *)
Ltac empty_text x Hn := destruct x; [reflexivity | cbn [length] in Hn; lia].

(** ** Slices *)

Lemma slice_nil_ge (s : str) (a b : nat) : b <= a -> slice s a b = [].
Proof.
  intros H. unfold slice. replace (b - a) with 0 by lia. reflexivity.
Qed.

Lemma slice_app (s : str) (a b c : nat) :
  a <= b -> b <= c -> slice s a b ++ slice s b c = slice s a c.
Proof.
  intros Hab Hbc. unfold slice.
  replace (c - a) with ((b - a) + (c - b)) by lia.
  replace (skipn b s) with (skipn (b - a) (skipn a s)).
  - generalize (skipn a s) as l. generalize (b - a) as n. generalize (c - b) as k.
    intros k n. induction n as [|n IH]; intros l; simpl.
    + reflexivity.
    + destruct l as [|x l]; simpl.
      * now rewrite firstn_nil.
      * now rewrite IH.
  - rewrite skipn_skipn. f_equal. lia.
Qed.

Lemma slice_to_end (s : str) (a b : nat) :
  a <= b -> slice s a b ++ slice_from s b = slice_from s a.
Proof.
  intros Hab. unfold slice, slice_from.
  replace (skipn b s) with (skipn (b - a) (skipn a s)).
  - apply firstn_skipn.
  - rewrite skipn_skipn. f_equal. lia.
Qed.

Lemma slice_from_0 (s : str) : slice_from s 0 = s.
Proof. reflexivity. Qed.

Lemma slice_0_whole (s : str) (a : nat) : slice s 0 a ++ slice_from s a = s.
Proof. rewrite slice_to_end by lia. reflexivity. Qed.

Lemma slice_length_le (s : str) (a b : nat) :
  a <= b -> b <= length s -> length (slice s a b) = b - a.
Proof.
  intros Hab Hb. unfold slice. rewrite length_firstn, length_skipn. lia.
Qed.

Lemma slice_from_past (s : str) (a : nat) : length s <= a -> slice_from s a = [].
Proof. intros H. unfold slice_from. now apply skipn_all2. Qed.

(** ** The matcher only moves forward *)

Lemma suffix_refl (a : str) : suffix_of a a.
Proof. now exists []. Qed.

Lemma suffix_trans (a b c : str) : suffix_of a b -> suffix_of b c -> suffix_of a c.
Proof.
  intros [w1 ->] [w2 ->]. exists (w2 ++ w1). now rewrite app_assoc.
Qed.

Lemma suffix_length (a b : str) : suffix_of a b -> length a <= length b.
Proof. intros [w ->]. rewrite length_app. lia. Qed.

Lemma suffix_same_length (a b : str) :
  suffix_of a b -> length a = length b -> a = b.
Proof.
  intros [w ->] H. rewrite length_app in H.
  destruct w; [reflexivity | simpl in H; lia].
Qed.

Lemma star_iter_suffix (step : mstate -> list mstate) :
  (forall x y, In y (step x) -> suffix_of (ms_rest y) (ms_rest x)) ->
  forall fuel st st', In st' (star_iter step fuel st) ->
                      suffix_of (ms_rest st') (ms_rest st).
Proof.
  intros Hstep. induction fuel as [|f IH]; intros st st' Hin; simpl in Hin.
  - destruct Hin as [<- | []]. apply suffix_refl.
  - apply in_app_or in Hin. destruct Hin as [Hin | [<- | []]].
    + apply in_flat_map in Hin. destruct Hin as [mid [Hmid Hin]].
      destruct (length (ms_rest mid) <? length (ms_rest st)); [|destruct Hin].
      eapply suffix_trans; [apply IH, Hin | apply Hstep, Hmid].
    + apply suffix_refl.
Qed.

Lemma rmatch_suffix (r : regex) :
  forall st st', In st' (rmatch r st) -> suffix_of (ms_rest st') (ms_rest st).
Proof.
  induction r as [|cs|a IHa b IHb|a IHa b IHb|a IHa|i a IHa| | |];
    intros st st' Hin; simpl in Hin.
  - destruct Hin as [<- | []]. apply suffix_refl.
  - destruct (ms_rest st) as [|c t] eqn:E; [destruct Hin|].
    destruct (in_cset cs c); [|destruct Hin].
    destruct Hin as [<- | []]. simpl. now exists [c].
  - apply in_flat_map in Hin. destruct Hin as [mid [Hmid Hin]].
    eapply suffix_trans; [apply IHb, Hin | apply IHa, Hmid].
  - apply in_app_or in Hin. destruct Hin; auto.
  - eapply star_iter_suffix; eauto.
  - apply in_map_iff in Hin. destruct Hin as [x [<- Hx]]. simpl. auto.
  - destruct (ms_prev st); [destruct Hin|]. destruct Hin as [<- | []]. apply suffix_refl.
  - destruct (ms_rest st) as [|c [|d t]] eqn:E.
    + destruct Hin as [<- | []]. rewrite E. apply suffix_refl.
    + destruct (Ascii.eqb c nl); [|destruct Hin].
      destruct Hin as [<- | []]. rewrite E. apply suffix_refl.
    + destruct Hin.
  - destruct (at_boundary st); [|destruct Hin].
    destruct Hin as [<- | []]. apply suffix_refl.
Qed.

Lemma match_here_suffix r adv prev rest st' :
  match_here r adv prev rest = Some st' -> suffix_of (ms_rest st') rest.
Proof.
  unfold match_here. intros H. apply find_some in H. destruct H as [H _].
  apply rmatch_suffix in H. exact H.
Qed.

Lemma match_here_advances r prev rest st' :
  match_here r true prev rest = Some st' -> length (ms_rest st') < length rest.
Proof.
  intros H. pose proof (match_here_suffix _ _ _ _ H) as Hs.
  apply suffix_length in Hs.
  unfold match_here in H. apply find_some in H. destruct H as [_ H].
  simpl in H. apply negb_true_iff in H. apply Nat.eqb_neq in H. lia.
Qed.

(** ** The matches of [finditer] *)

Lemma spans_weaken s lo lo' ms : lo' <= lo -> spans s lo ms -> spans s lo' ms.
Proof.
  intros Hle H. destruct H; constructor; auto. lia.
Qed.

Lemma scan_spans (r : regex) (s : str) :
  forall fuel adv prev pos rest,
    rest = slice_from s pos -> pos <= length s ->
    spans s pos (scan r fuel adv prev pos rest).
Proof.
  induction fuel as [|f IH]; intros adv prev pos rest Hrest Hpos; simpl.
  - constructor.
  - destruct (match_here r adv prev rest) as [st'|] eqn:E.
    + pose proof (match_here_suffix _ _ _ _ E) as [w Hw].
      assert (Hn : length rest - length (ms_rest st') = length w).
      { rewrite Hw, length_app. lia. }
      rewrite Hn.
      assert (Hlen : length rest = length s - pos).
      { rewrite Hrest. unfold slice_from. apply length_skipn. }
      assert (Hwl : pos + length w <= length s).
      { rewrite Hw, length_app in Hlen. lia. }
      constructor; simpl; try lia.
      * unfold slice. replace (pos + length w - pos) with (length w) by lia.
        unfold slice_from in Hrest. now rewrite <- Hrest.
      * apply IH; [|lia].
        unfold slice_from in *. rewrite Nat.add_comm, <- skipn_skipn, <- Hrest, Hw.
        rewrite skipn_app, skipn_all, Nat.sub_diag. reflexivity.
    + destruct rest as [|c t]; [constructor|].
      assert (Hlen : length (c :: t) = length s - pos).
      { rewrite Hrest. unfold slice_from. apply length_skipn. }
      simpl in Hlen.
      apply spans_weaken with (lo := S pos); [lia|].
      apply IH; [|lia].
      unfold slice_from in *. replace (S pos) with (1 + pos) by lia.
      rewrite <- skipn_skipn, <- Hrest. reflexivity.
Qed.

Lemma finditer_spans (r : regex) (s : str) : spans s 0 (finditer r s).
Proof. apply scan_spans; [reflexivity | lia]. Qed.

(** Enough fuel: more does not change the matches found. *)
Lemma scan_fuel (r : regex) :
  forall fuel fuel' (adv : bool) prev pos rest,
    2 * length rest + (if adv then 1 else 2) <= fuel ->
    2 * length rest + (if adv then 1 else 2) <= fuel' ->
    scan r fuel adv prev pos rest = scan r fuel' adv prev pos rest.
Proof.
  induction fuel as [|f IH]; intros fuel' adv prev pos rest H1 H2.
  - destruct adv; lia.
  - destruct fuel' as [|f']; [destruct adv; lia|]. simpl.
    destruct (match_here r adv prev rest) as [st'|] eqn:E.
    + f_equal.
      pose proof (match_here_suffix _ _ _ _ E) as Hs.
      pose proof (suffix_length Hs) as Hl.
      destruct (length rest - length (ms_rest st') =? 0) eqn:En.
      * apply Nat.eqb_eq in En.
        destruct adv.
        -- apply match_here_advances in E. lia.
        -- apply IH; lia.
      * apply Nat.eqb_neq in En. apply IH; destruct adv; lia.
    + destruct rest as [|c t]; [reflexivity|].
      simpl in H1, H2. apply IH; destruct adv; lia.
Qed.

(** ** Substitution *)

Lemma splice_spans_shift s lo lo' ms f :
  lo <= lo' -> spans s lo' ms ->
  splice s lo (map (with_text f) ms) = slice s lo lo' ++ splice s lo' (map (with_text f) ms).
Proof.
  intros Hle H. destruct H as [lo'|lo' m ms H1 H2 H3 H4 H5]; simpl.
  - symmetry. now apply slice_to_end.
  - rewrite <- (slice_app s (a := lo) (b := lo') (c := m_start m)) by lia.
    now rewrite <- app_assoc.
Qed.

Lemma splice_own s lo ms :
  spans s lo ms -> splice s lo (map own ms) = slice_from s lo.
Proof.
  induction 1 as [lo|lo m ms H1 H2 H3 H4 H5 IH]; simpl.
  - reflexivity.
  - rewrite IH, H4, slice_to_end by lia. now apply slice_to_end.
Qed.

Lemma sub_loop_splice s repl ms out i :
  sub_loop s repl ms out i = out ++ splice s i (map (with_text (fun _ => repl)) ms).
Proof.
  revert out i. induction ms as [|m ms IH]; intros out i; simpl.
  - reflexivity.
  - rewrite IH. now rewrite <- !app_assoc.
Qed.

Lemma re_sub_splice r repl s :
  re_sub r repl s = splice s 0 (map (with_text (fun _ => repl)) (finditer r s)).
Proof. unfold re_sub. now rewrite sub_loop_splice. Qed.

Lemma splice_scan_subscan (r : regex) (repl s : str) :
  forall fuel adv prev pos rest,
    rest = slice_from s pos -> pos <= length s ->
    splice s pos (map (with_text (fun _ => repl)) (scan r fuel adv prev pos rest))
    = subscan r repl fuel adv prev rest.
Proof.
  induction fuel as [|f IH]; intros adv prev pos rest Hrest Hpos; simpl.
  - now symmetry.
  - assert (Hlen : length rest = length s - pos).
    { rewrite Hrest. unfold slice_from. apply length_skipn. }
    destruct (match_here r adv prev rest) as [st'|] eqn:E.
    + pose proof (match_here_suffix _ _ _ _ E) as [w Hw].
      assert (Hn : length rest - length (ms_rest st') = length w).
      { rewrite Hw, length_app. lia. }
      rewrite Hn. simpl. rewrite slice_nil_ge by lia. simpl. f_equal.
      apply IH.
      * unfold slice_from in *. rewrite Nat.add_comm, <- skipn_skipn, <- Hrest, Hw.
        rewrite skipn_app, skipn_all, Nat.sub_diag. reflexivity.
      * rewrite Hw, length_app in Hlen. lia.
    + destruct rest as [|c t]; [now symmetry|].
      simpl in Hlen.
      assert (Ht : t = slice_from s (S pos)).
      { unfold slice_from in *. replace (S pos) with (1 + pos) by lia.
        rewrite <- skipn_skipn, <- Hrest. reflexivity. }
      rewrite splice_spans_shift with (lo' := S pos);
        [| lia | apply scan_spans; [exact Ht | lia]].
      rewrite IH; [| exact Ht | lia].
      unfold slice. replace (S pos - pos) with 1 by lia.
      unfold slice_from in Hrest. rewrite <- Hrest. reflexivity.
Qed.

Lemma re_sub_sub_str r repl s : re_sub r repl s = sub_str r repl None s.
Proof.
  rewrite re_sub_splice. unfold finditer, sub_str.
  apply splice_scan_subscan; [reflexivity | lia].
Qed.

Lemma spans_filter s (p : rmatch_obj -> bool) lo ms :
  spans s lo ms -> spans s lo (filter p ms).
Proof.
  induction 1 as [lo|lo m ms H1 H2 H3 H4 H5 IH]; simpl.
  - constructor.
  - destruct (p m).
    + now constructor.
    + apply spans_weaken with (lo := m_end m); [lia | exact IH].
Qed.

Lemma finditer_splice_own r s : splice s 0 (map own (finditer r s)) = s.
Proof. rewrite splice_own by apply finditer_spans. reflexivity. Qed.

Lemma str_eqb_refl (a : str) : str_eqb a a = true.
Proof. unfold str_eqb. destruct (list_eq_dec ascii_dec a a); congruence. Qed.

Lemma str_eqb_eq (a b : str) : str_eqb a b = true <-> a = b.
Proof. unfold str_eqb. destruct (list_eq_dec ascii_dec a b); split; congruence. Qed.

Lemma str_eqb_neq (a b : str) : str_eqb a b = false <-> a <> b.
Proof. unfold str_eqb. destruct (list_eq_dec ascii_dec a b); split; congruence. Qed.

(** ** Uniform folding *)

Lemma uniform_loop_known s :
  forall ms acc start,
    fst (uniform_loop s ms acc start) ++ slice_from s (snd (uniform_loop s ms acc start))
    = acc ++ splice s start (map (with_text folded_decl) (filter is_known ms)).
Proof.
  induction ms as [|m ms IH]; intros acc start;
    cbn [uniform_loop fst snd filter map splice].
  - reflexivity.
  - destruct (get_uniform_value (group m 2)) as [v|] eqn:E.
    + assert (K : is_known m = true) by (unfold is_known; now rewrite E).
      rewrite K. cbn [map splice with_text]. rewrite IH.
      unfold folded_decl. rewrite E. now rewrite <- !app_assoc.
    + assert (K : is_known m = false) by (unfold is_known; now rewrite E).
      rewrite K. apply IH.
Qed.

Lemma splice_known_all s lo ms :
  spans s lo ms ->
  splice s lo (map (with_text folded_decl) (filter is_known ms))
  = splice s lo (map (with_text folded_decl) ms).
Proof.
  induction 1 as [lo|lo m ms H1 H2 H3 H4 H5 IH]; simpl.
  - reflexivity.
  - destruct (is_known m) eqn:K; cbn [map splice with_text].
    + now rewrite IH.
    + rewrite splice_spans_shift with (lo' := m_end m);
        [| lia | now apply spans_filter].
      rewrite IH. unfold folded_decl at 2. unfold is_known in K.
      destruct (get_uniform_value (group m 2)); [discriminate|].
      rewrite H4, app_assoc. f_equal. symmetry. apply slice_app; lia.
Qed.

Lemma replace_uniform_variables_known s :
  replace_uniform_variables s
  = splice s 0 (map (with_text folded_decl)
                    (filter is_known (finditer uniform_pattern s))).
Proof.
  unfold replace_uniform_variables.
  pose proof (uniform_loop_known s (finditer uniform_pattern s) [] 0) as H.
  destruct (uniform_loop s (finditer uniform_pattern s) [] 0) as [c st].
  exact H.
Qed.

(** ** Declaration dedup *)

Lemma dd_get_append k key x d :
  dd_get k (dd_append key x d)
  = if str_eqb k key then dd_get k d ++ [x] else dd_get k d.
Proof.
  induction d as [|[k' v] d IH]; simpl.
  - destruct (str_eqb k key); reflexivity.
  - destruct (str_eqb key k') eqn:E1; simpl.
    + apply str_eqb_eq in E1. subst k'.
      destruct (str_eqb k key); reflexivity.
    + destruct (str_eqb k k') eqn:E2.
      * apply str_eqb_eq in E2. subst k'.
        destruct (str_eqb k key) eqn:E3; [|reflexivity].
        apply str_eqb_eq in E3. subst. rewrite str_eqb_refl in E1. discriminate.
      * exact IH.
Qed.


Lemma dd_holds_append d seen m :
  dd_holds d seen ->
  dd_holds (dd_append (decl_key m) (m_text m) d) (seen ++ [m]).
Proof.
  intros H k. rewrite dd_get_append, filter_app, map_app, H. simpl.
  destruct (str_eqb k (decl_key m)); simpl; [reflexivity | now rewrite app_nil_r].
Qed.

Lemma first_text_via_seen seen m ms :
  nth 0 (map m_text (filter (fun m' => str_eqb (decl_key m) (decl_key m')) seen)
         ++ [m_text m]) []
  = first_text (seen ++ m :: ms) m.
Proof.
  unfold first_text. induction seen as [|x seen IH]; simpl.
  - unfold same_key. now rewrite str_eqb_refl.
  - unfold same_key at 1. destruct (str_eqb (decl_key m) (decl_key x)); simpl.
    + reflexivity.
    + exact IH.
Qed.

Lemma redundant_loop_splice s :
  forall ms seen d acc start,
    dd_holds d seen ->
    fst (redundant_loop s ms d acc start)
    ++ slice_from s (snd (redundant_loop s ms d acc start))
    = acc ++ splice s start (map (with_text (first_text (seen ++ ms))) ms).
Proof.
  induction ms as [|m ms IH]; intros seen d acc start Hd;
    cbn [redundant_loop fst snd map splice with_text].
  - reflexivity.
  - fold (decl_key m).
    rewrite (IH (seen ++ [m])) by now apply dd_holds_append.
    rewrite <- app_assoc. cbn [app].
    rewrite dd_get_append, str_eqb_refl, Hd, (first_text_via_seen seen m ms).
    now rewrite <- !app_assoc.
Qed.

(** ** Unfolding the matcher *)

Lemma rmatch_seq a b st : rmatch (Seq a b) st = flat_map (rmatch b) (rmatch a st).
Proof. reflexivity. Qed.

Lemma rmatch_alt a b st : rmatch (Alt a b) st = rmatch a st ++ rmatch b st.
Proof. reflexivity. Qed.

Lemma rmatch_chr cs st :
  rmatch (Chr cs) st
  = match ms_rest st with
    | c :: t => if in_cset cs c then [MState (Some c) t (ms_caps st)] else []
    | [] => []
    end.
Proof. reflexivity. Qed.

Lemma rmatch_grp i a st :
  rmatch (Grp i a) st
  = map (fun st' =>
           MState (ms_prev st') (ms_rest st')
             ((i, firstn (length (ms_rest st) - length (ms_rest st'))
                         (ms_rest st)) :: ms_caps st'))
        (rmatch a st).
Proof. reflexivity. Qed.

Lemma rmatch_wordb st : rmatch Wordb st = if at_boundary st then [st] else [].
Proof. reflexivity. Qed.

Lemma rmatch_eps st : rmatch Eps st = [st].
Proof. reflexivity. Qed.

(** ** Captures *)


Lemma caps_extend_refl gs st : caps_extend gs st st.
Proof. exists []. split; [reflexivity | constructor]. Qed.

Lemma caps_extend_trans gs a b c :
  caps_extend gs a b -> caps_extend gs b c -> caps_extend gs a c.
Proof.
  intros [e1 [H1 F1]] [e2 [H2 F2]]. exists (e2 ++ e1). split.
  - now rewrite H2, H1, app_assoc.
  - apply Forall_app. now split.
Qed.

Lemma caps_extend_incl gs gs' a b :
  incl gs gs' -> caps_extend gs a b -> caps_extend gs' a b.
Proof.
  intros Hi [e [H F]]. exists e. split; [exact H|].
  eapply Forall_impl; [|exact F]. intros p Hp. now apply Hi.
Qed.

Lemma star_iter_caps gs (step : mstate -> list mstate) :
  (forall x y, In y (step x) -> caps_extend gs x y) ->
  forall fuel st st', In st' (star_iter step fuel st) -> caps_extend gs st st'.
Proof.
  intros Hstep. induction fuel as [|f IH]; intros st st' Hin; simpl in Hin.
  - destruct Hin as [<- | []]. apply caps_extend_refl.
  - apply in_app_or in Hin. destruct Hin as [Hin | [<- | []]].
    + apply in_flat_map in Hin. destruct Hin as [mid [Hmid Hin]].
      destruct (length (ms_rest mid) <? length (ms_rest st)); [|destruct Hin].
      eapply caps_extend_trans; [apply Hstep, Hmid | apply IH, Hin].
    + apply caps_extend_refl.
Qed.

Lemma rmatch_caps (r : regex) :
  forall st st', In st' (rmatch r st) -> caps_extend (groups_of r) st st'.
Proof.
  induction r as [|cs|a IHa b IHb|a IHa b IHb|a IHa|i a IHa| | |];
    intros st st' Hin; simpl in Hin.
  - destruct Hin as [<- | []]. apply caps_extend_refl.
  - destruct (ms_rest st) as [|c t]; [destruct Hin|].
    destruct (in_cset cs c); [|destruct Hin].
    destruct Hin as [<- | []]. exists []. split; [reflexivity | constructor].
  - apply in_flat_map in Hin. destruct Hin as [mid [Hmid Hin]].
    eapply caps_extend_trans.
    + eapply caps_extend_incl; [|apply IHa, Hmid]. simpl. apply incl_appl, incl_refl.
    + eapply caps_extend_incl; [|apply IHb, Hin]. simpl. apply incl_appr, incl_refl.
  - apply in_app_or in Hin. destruct Hin as [Hin|Hin].
    + eapply caps_extend_incl; [|apply IHa, Hin]. simpl. apply incl_appl, incl_refl.
    + eapply caps_extend_incl; [|apply IHb, Hin]. simpl. apply incl_appr, incl_refl.
  - eapply star_iter_caps; eauto.
  - apply in_map_iff in Hin. destruct Hin as [x [<- Hx]].
    destruct (IHa _ _ Hx) as [e [He Fe]].
    exists ((i, firstn (length (ms_rest st) - length (ms_rest x)) (ms_rest st)) :: e).
    split.
    + simpl. now rewrite He.
    + constructor; [now left|].
      eapply Forall_impl; [|exact Fe]. intros p Hp. now right.
  - destruct (ms_prev st); [destruct Hin|]. destruct Hin as [<- | []].
    apply caps_extend_refl.
  - destruct (ms_rest st) as [|c [|d t]].
    + destruct Hin as [<- | []]. apply caps_extend_refl.
    + destruct (Ascii.eqb c nl); [|destruct Hin].
      destruct Hin as [<- | []]. apply caps_extend_refl.
    + destruct Hin.
  - destruct (at_boundary st); [|destruct Hin].
    destruct Hin as [<- | []]. apply caps_extend_refl.
Qed.

Lemma lookup_cap_extra i extra caps :
  Forall (fun p : nat * str => fst p <> i) extra ->
  lookup_cap i (extra ++ caps) = lookup_cap i caps.
Proof.
  induction 1 as [|[j v] e Hj _ IH]; simpl.
  - reflexivity.
  - simpl in Hj. destruct (i =? j) eqn:E.
    + apply Nat.eqb_eq in E. congruence.
    + exact IH.
Qed.

Lemma rmatch_plus_chr_advances cs st st' :
  In st' (rmatch (Plus (Chr cs)) st) -> length (ms_rest st') < length (ms_rest st).
Proof.
  unfold Plus. rewrite rmatch_seq. intros Hin.
  apply in_flat_map in Hin. destruct Hin as [mid [Hmid Hin]].
  rewrite rmatch_chr in Hmid.
  destruct (ms_rest st) as [|c t] eqn:E; [destruct Hmid|].
  destruct (in_cset cs c); [|destruct Hmid].
  destruct Hmid as [<- | []].
  apply rmatch_suffix, suffix_length in Hin. simpl in *. lia.
Qed.

(** A property of the captures of every successful attempt holds of
    every match found. *)
Lemma scan_caps (r : regex) (P : list (nat * str) -> Prop) :
  (forall adv prev rest st',
      match_here r adv prev rest = Some st' -> P (ms_caps st')) ->
  forall fuel adv prev pos rest,
    Forall (fun m => P (m_caps m)) (scan r fuel adv prev pos rest).
Proof.
  intros HP. induction fuel as [|f IH]; intros adv prev pos rest; simpl.
  - constructor.
  - destruct (match_here r adv prev rest) as [st'|] eqn:E.
    + constructor; [simpl; eapply HP; eauto | apply IH].
    + destruct rest; [constructor | apply IH].
Qed.

(** The type name captured by the declaration pattern is never empty. *)
Lemma var_decl_type_nonempty s :
  Forall (fun m => group m 1 <> []) (finditer var_decl_pattern s).
Proof.
  unfold finditer, group.
  apply scan_caps with (P := fun caps => lookup_cap 1 caps <> []).
  intros adv prev rest st' H.
  unfold match_here in H. apply find_some in H. destruct H as [H _].
  unfold var_decl_pattern in H. cbn [seqs] in H.
  remember (Seq (Plus ws) _) as tail_pattern eqn:Et in H.
  rewrite rmatch_seq in H.
  apply in_flat_map in H. destruct H as [st0 [H0 H]].
  rewrite rmatch_wordb in H0.
  destruct (at_boundary _); [|destruct H0]. destruct H0 as [<- | []].
  rewrite rmatch_seq in H.
  apply in_flat_map in H. destruct H as [mid [Hmid H]].
  rewrite rmatch_grp in Hmid.
  apply in_map_iff in Hmid. destruct Hmid as [x [<- Hx]].
  apply rmatch_plus_chr_advances in Hx. simpl in Hx.
  apply rmatch_caps in H. destruct H as [extra [Hc Fe]].
  rewrite Hc. simpl ms_caps.
  rewrite lookup_cap_extra.
  - cbn [lookup_cap Nat.eqb]. destruct rest as [|c t]; [simpl in Hx; lia|].
    destruct (length (c :: t) - length (ms_rest x)) eqn:En; [lia|].
    simpl. discriminate.
  - eapply Forall_impl; [|exact Fe]. intros [j v] Hj. simpl.
    replace (groups_of tail_pattern) with [2; 3] in Hj by (now rewrite Et).
    simpl in Hj. intuition lia.
Qed.

(** ** Declaration merge *)

Lemma combine_loop_text s :
  forall ms st,
    new_code (combine_loop s ms st) = new_code st ++ gaps s (cs_start st) ms
    /\ cs_start (combine_loop s ms st) = last_end (cs_start st) ms.
Proof.
  unfold combine_loop.
  induction ms as [|m ms IH]; intros st; cbn [fold_left gaps last_end].
  - now rewrite app_nil_r.
  - destruct (IH (combine_step s st m)) as [H1 H2]. rewrite H1, H2.
    unfold combine_step.
    destruct (if str_eqb (current_var_type st) [] then _ else _) as [[[d t] n] z].
    cbn [new_code cs_start]. now rewrite <- app_assoc.
Qed.

Lemma runs_cons_head m ms : exists g gs, runs (m :: ms) = (m :: g) :: gs.
Proof.
  simpl. destruct (runs ms) as [|[|m' g] gs].
  - now exists [], [].
  - now exists [], [].
  - destruct (str_eqb (group m 1) (group m' 1)); eauto.
Qed.

Lemma runs_same_type ty cur :
  cur <> [] -> same_type ty cur -> runs cur = [cur].
Proof.
  induction cur as [|x cur IH]; intros Hne Hs; [congruence|].
  inversion Hs as [|? ? Hx Hrest]; subst.
  destruct cur as [|y cur]; [reflexivity|].
  cbn [runs]. cbn [runs] in IH. rewrite IH; [|discriminate|exact Hrest].
  inversion Hrest as [|? ? Hy _]; subst.
  now rewrite Hy, str_eqb_refl.
Qed.

Lemma runs_type_change ty cur m ms :
  cur <> [] -> same_type ty cur -> group m 1 <> ty ->
  runs (cur ++ m :: ms) = cur :: runs (m :: ms).
Proof.
  induction cur as [|x cur IH]; intros Hne Hs Hm; [congruence|].
  inversion Hs as [|? ? Hx Hrest]; subst.
  destruct cur as [|y cur].
  - change ([x] ++ m :: ms) with (x :: m :: ms).
    destruct (runs_cons_head m ms) as [g [gs E]].
    change (runs (x :: m :: ms))
      with (match runs (m :: ms) with
            | (m' :: g) :: gs =>
                if str_eqb (group x 1) (group m' 1)
                then (x :: m' :: g) :: gs else [x] :: (m' :: g) :: gs
            | _ => [[x]]
            end).
    rewrite E.
    destruct (str_eqb (group x 1) (group m 1)) eqn:Eq; [|reflexivity].
    apply str_eqb_eq in Eq. congruence.
  - change ((x :: y :: cur) ++ m :: ms) with (x :: ((y :: cur) ++ m :: ms)).
    change (runs (x :: ((y :: cur) ++ m :: ms)))
      with (match runs ((y :: cur) ++ m :: ms) with
            | (m' :: g) :: gs =>
                if str_eqb (group x 1) (group m' 1)
                then (x :: m' :: g) :: gs else [x] :: (m' :: g) :: gs
            | _ => [[x]]
            end).
    rewrite IH; [|discriminate|exact Hrest|exact Hm].
    inversion Hrest as [|? ? Hy _]; subst.
    now rewrite Hy, str_eqb_refl.
Qed.

Lemma join_snoc sep (l : list str) x :
  l <> [] -> join sep (l ++ [x]) = join sep l ++ sep ++ x.
Proof.
  induction l as [|a l IH]; intros Hne; [congruence|].
  destruct l as [|b l].
  - reflexivity.
  - change (join sep ((a :: b :: l) ++ [x]))
      with (a ++ sep ++ join sep ((b :: l) ++ [x])).
    rewrite IH by discriminate.
    change (join sep (a :: b :: l)) with (a ++ sep ++ join sep (b :: l)).
    now rewrite <- !app_assoc.
Qed.

Lemma sizes_part_snoc cur m :
  cur <> [] ->
  sizes_part (cur ++ [m])
  = match group m 3 with
    | [] => sizes_part cur
    | sz => sizes_part cur ++ L ", " ++ sz
    end.
Proof.
  destruct cur as [|x cur]; intros Hne; [congruence|].
  change ((x :: cur) ++ [m]) with (x :: (cur ++ [m])).
  unfold sizes_part. rewrite map_app, concat_app. cbn [map concat].
  destruct (group m 3) as [|c sz].
  - now rewrite !app_nil_r.
  - now rewrite app_nil_r, app_assoc.
Qed.

Lemma flush_text_merged st decls cur :
  tracks st decls cur ->
  flush_text (current_var_type st) (current_var_names st) (current_var_sizes st)
  = merged_decl cur.
Proof.
  intros (Hne & Hty & Hs & Hn & Hz & Hd).
  destruct cur as [|x cur]; [congruence|].
  inversion Hs as [|? ? Hx _]; subst.
  unfold flush_text, merged_decl. rewrite Hn, Hz, Hx.
  now destruct (sizes_part (x :: cur)).
Qed.

Lemma combine_step_same s st decls cur m :
  tracks st decls cur -> group m 1 = current_var_type st ->
  tracks (combine_step s st m) decls (cur ++ [m]).
Proof.
  intros (Hne & Hty & Hs & Hn & Hz & Hd) Hm. unfold combine_step.
  destruct (str_eqb (current_var_type st) []) eqn:E0.
  { apply str_eqb_eq in E0. congruence. }
  destruct (str_eqb (current_var_type st) (group m 1)) eqn:E1;
    [| apply str_eqb_neq in E1; congruence].
  unfold tracks. cbn [current_var_type
    current_var_names current_var_sizes var_declarations].
  repeat split.
  - destruct cur; discriminate.
  - exact Hty.
  - apply Forall_app. split; [exact Hs | now constructor].
  - rewrite map_app. cbn [map]. rewrite join_snoc.
    + now rewrite <- Hn.
    + destruct cur; [congruence | discriminate].
  - rewrite sizes_part_snoc by exact Hne. rewrite <- Hz.
    now destruct (group m 3).
  - exact Hd.
Qed.

Lemma combine_step_change s st decls cur m :
  tracks st decls cur -> group m 1 <> current_var_type st -> group m 1 <> [] ->
  tracks (combine_step s st m) (decls ++ [merged_decl cur]) [m].
Proof.
  intros Ht Hm Hne0. pose proof (flush_text_merged Ht) as Hf.
  destruct Ht as (Hne & Hty & Hs & Hn & Hz & Hd). unfold combine_step.
  destruct (str_eqb (current_var_type st) []) eqn:E0.
  { apply str_eqb_eq in E0. congruence. }
  destruct (str_eqb (current_var_type st) (group m 1)) eqn:E1.
  { apply str_eqb_eq in E1. congruence. }
  unfold tracks. cbn [current_var_type current_var_names current_var_sizes
                      var_declarations].
  repeat split.
  - discriminate.
  - exact Hne0.
  - now constructor.
  - unfold sizes_part. cbn [map concat]. now rewrite app_nil_r.
  - now rewrite Hf, Hd.
Qed.

Lemma combine_loop_decls s :
  forall ms st decls cur,
    Forall (fun m => group m 1 <> []) ms ->
    tracks st decls cur ->
    final_decls (combine_loop s ms st) = decls ++ map merged_decl (runs (cur ++ ms)).
Proof.
  unfold combine_loop.
  induction ms as [|m ms IH]; intros st decls cur Hall Ht; cbn [fold_left].
  - rewrite app_nil_r.
    pose proof (flush_text_merged Ht) as Hf.
    destruct Ht as (Hne & Hty & Hs & Hn & Hz & Hd).
    rewrite (@runs_same_type _ cur Hne Hs). unfold final_decls.
    destruct (current_var_type st); [congruence|].
    now rewrite Hf, Hd.
  - inversion Hall as [|? ? Hm Hrest]; subst.
    destruct (list_eq_dec ascii_dec (group m 1) (current_var_type st)) as [E|E].
    + rewrite (IH _ decls (cur ++ [m]) Hrest (@combine_step_same s st decls cur m Ht E)).
      now rewrite <- app_assoc.
    + rewrite (IH _ _ [m] Hrest (@combine_step_change s st decls cur m Ht E Hm)).
      destruct Ht as (Hne & Hty & Hs & Hn & Hz & Hd).
      rewrite (@runs_type_change _ cur m ms Hne Hs E).
      now rewrite <- app_assoc.
Qed.

Lemma combine_step_first s m :
  group m 1 <> [] ->
  tracks (combine_step s (CState [] [] [] [] [] 0) m) [] [m].
Proof.
  intros Hm. unfold combine_step. cbn [current_var_type]. rewrite str_eqb_refl.
  unfold tracks. cbn [current_var_type current_var_names current_var_sizes
                      var_declarations].
  repeat split.
  - discriminate.
  - exact Hm.
  - now constructor.
  - unfold sizes_part. cbn [map concat]. now rewrite app_nil_r.
Qed.

Lemma combine_variable_declarations_groups s :
  combine_variable_declarations s
  = gaps s 0 (finditer var_decl_pattern s)
    ++ merged_block (finditer var_decl_pattern s) ++ [nl]
    ++ slice_from s (last_end 0 (finditer var_decl_pattern s)).
Proof.
  unfold combine_variable_declarations, merged_block.
  pose proof (var_decl_type_nonempty s) as Hall.
  destruct (combine_loop_text s (finditer var_decl_pattern s) (CState [] [] [] [] [] 0))
    as [H1 H2].
  rewrite H1, H2. cbn [new_code cs_start app]. f_equal.
  fold (final_decls (combine_loop s (finditer var_decl_pattern s) (CState [] [] [] [] [] 0))).
  destruct (finditer var_decl_pattern s) as [|m ms].
  - reflexivity.
  - inversion Hall as [|? ? Hm Hrest]; subst.
    unfold combine_loop. cbn [fold_left].
    fold (combine_loop s ms (combine_step s (CState [] [] [] [] [] 0) m)).
    rewrite (@combine_loop_decls s ms _ [] [m] Hrest (@combine_step_first s m Hm)).
    reflexivity.
Qed.

(** ** Brace scanning *)

Lemma brace_loop_stopped i rest : brace_loop 0 i rest = i.
Proof. destruct rest; reflexivity. Qed.

Lemma brace_loop_close :
  forall rest d i,
    (0 < d)%Z ->
    brace_loop d i rest
    = match close_index d i rest with
      | Some j => j + 1
      | None => i + length rest
      end.
Proof.
  induction rest as [|c t IH]; intros d i Hd; cbn [brace_loop close_index length].
  - lia.
  - replace (0 <? d)%Z with true by (symmetry; now apply Z.ltb_lt).
    set (d' := if Ascii.eqb c "{" then (d + 1)%Z
               else if Ascii.eqb c "}" then (d - 1)%Z else d).
    assert (Hd' : (0 <= d')%Z).
    { subst d'. destruct (Ascii.eqb c "{"), (Ascii.eqb c "}"); lia. }
    destruct (d' =? 0)%Z eqn:E.
    + apply Z.eqb_eq in E. rewrite E. apply brace_loop_stopped.
    + apply Z.eqb_neq in E. rewrite IH by lia.
      destruct (close_index d' (i + 1) t); lia.
Qed.

Lemma close_index_brace :
  forall rest d i j,
    (0 < d)%Z -> close_index d i rest = Some j ->
    i <= j /\ slice rest (j - i) (j - i + 1) = L "}".
Proof.
  induction rest as [|c t IH]; intros d i j Hd H; cbn [close_index] in H.
  - discriminate.
  - set (d' := if Ascii.eqb c "{" then (d + 1)%Z
               else if Ascii.eqb c "}" then (d - 1)%Z else d) in H.
    destruct (d' =? 0)%Z eqn:E.
    + injection H as <-. split; [lia|].
      replace (i - i) with 0 by lia. apply Z.eqb_eq in E. subst d'.
      destruct (Ascii.eqb c "{"); [lia|].
      destruct (Ascii.eqb c "}") eqn:Ec; [|lia].
      apply Ascii.eqb_eq in Ec. now subst c.
    + apply Z.eqb_neq in E.
      assert (Hd' : (0 < d')%Z).
      { subst d'. destruct (Ascii.eqb c "{"), (Ascii.eqb c "}"); lia. }
      destruct (IH _ _ _ Hd' H) as [Hij Hs]. split; [lia|].
      replace (j - i) with (S (j - (i + 1))) by lia.
      unfold slice in *. cbn [skipn].
      replace (S (j - (i + 1)) + 1 - S (j - (i + 1)))
        with (j - (i + 1) + 1 - (j - (i + 1))) by lia.
      exact Hs.
Qed.

Lemma find_function_body_close s off :
  find_function_body s off
  = match close_index 1 off (slice_from s off) with
    | Some j => slice s off (j + 1)
    | None => slice_from s off
    end.
Proof.
  unfold find_function_body. rewrite brace_loop_close by lia.
  destruct (close_index 1 off (slice_from s off)); [reflexivity|].
  unfold slice, slice_from.
  replace (off + length (skipn off s) - off) with (length (skipn off s)) by lia.
  apply firstn_all.
Qed.

(** The scanner returns the body of the contract and, after it, the
    closing brace at which the depth reached 0. *)
Lemma find_function_body_keeps_brace s off j :
  close_index 1 off (slice_from s off) = Some j ->
  find_function_body s off = body_upto_close s off ++ L "}".
Proof.
  intros H. rewrite find_function_body_close. unfold body_upto_close. rewrite H.
  assert (Hd : (0 < 1)%Z) by lia.
  destruct (close_index_brace _ _ Hd H) as [Hij Hs].
  rewrite <- (slice_app s (a := off) (b := j) (c := j + 1)) by lia. f_equal.
  rewrite <- Hs. unfold slice, slice_from. rewrite skipn_skipn.
  replace (j - off + off) with j by lia. f_equal. lia.
Qed.

Lemma find_loop_body_eq s off : find_loop_body s off = find_function_body s off.
Proof. reflexivity. Qed.

(** ** Loop unrolling *)






(** ** Substitution, cursor by cursor *)

Lemma subscan_fuel (r : regex) (repl : str) :
  forall fuel fuel' (adv : bool) prev rest,
    2 * length rest + (if adv then 1 else 2) <= fuel ->
    2 * length rest + (if adv then 1 else 2) <= fuel' ->
    subscan r repl fuel adv prev rest = subscan r repl fuel' adv prev rest.
Proof.
  induction fuel as [|f IH]; intros fuel' adv prev rest H1 H2.
  - destruct adv; lia.
  - destruct fuel' as [|f']; [destruct adv; lia|]. cbn [subscan].
    destruct (match_here r adv prev rest) as [st'|] eqn:E.
    + f_equal.
      pose proof (match_here_suffix _ _ _ _ E) as Hs.
      pose proof (suffix_length Hs) as Hl.
      destruct (length rest - length (ms_rest st') =? 0) eqn:En.
      * apply Nat.eqb_eq in En.
        destruct adv.
        -- apply match_here_advances in E. lia.
        -- apply IH; lia.
      * apply Nat.eqb_neq in En. apply IH; destruct adv; lia.
    + destruct rest as [|c t]; [reflexivity|].
      cbn [length] in H1, H2. f_equal. apply IH; destruct adv; lia.
Qed.

Lemma find_all_true (A : Type) (p : A -> bool) (l : list A) :
  (forall x, In x l -> p x = true) -> find p l = hd_error l.
Proof.
  destruct l as [|a l]; intros H; [reflexivity|].
  simpl. now rewrite H by now left.
Qed.

Lemma match_here_hd r adv prev rest :
  never_empty r ->
  match_here r adv prev rest = hd_error (rmatch r (MState prev rest [])).
Proof.
  intros Hne. unfold match_here. apply find_all_true.
  intros x Hx. apply Hne in Hx.
  apply negb_true_iff, andb_false_iff. right. apply Nat.eqb_neq. lia.
Qed.

Lemma sub_str_unfold r repl prev rest :
  never_empty r ->
  sub_str r repl prev rest
  = match hd_error (rmatch r (MState prev rest [])) with
    | Some st' => repl ++ sub_str r repl (ms_prev st') (ms_rest st')
    | None =>
        match rest with
        | [] => []
        | c :: t => c :: sub_str r repl (Some c) t
        end
    end.
Proof.
  intros Hne. unfold sub_str.
  replace (2 * length rest + 2) with (S (2 * length rest + 1)) by lia.
  cbn [subscan]. rewrite match_here_hd by exact Hne.
  destruct (hd_error (rmatch r (MState prev rest []))) as [st'|] eqn:E.
  - assert (Hin : In st' (rmatch r (MState prev rest []))).
    { destruct (rmatch r (MState prev rest [])); [discriminate|].
      injection E as ->. now left. }
    apply Hne in Hin.
    replace (length rest - length (ms_rest st') =? 0) with false
      by (symmetry; apply Nat.eqb_neq; lia).
    f_equal. apply subscan_fuel; lia.
  - destruct rest as [|c t]; [reflexivity|].
    f_equal. apply subscan_fuel; cbn [length]; lia.
Qed.

(** ** Repetition of a character class *)

Lemma rmatch_star_chr cs :
  forall rest prev caps,
    rmatch (Star (Chr cs)) (MState prev rest caps) = run_states cs prev rest caps.
Proof.
  induction rest as [|c t IH]; intros prev caps.
  - reflexivity.
  - change (rmatch (Star (Chr cs)) (MState prev (c :: t) caps))
      with (star_iter (rmatch (Chr cs)) (S (length t)) (MState prev (c :: t) caps)).
    cbn [star_iter]. rewrite rmatch_chr. cbn [ms_rest ms_caps run_states].
    destruct (in_cset cs c); [|reflexivity].
    cbn [flat_map ms_rest]. rewrite app_nil_r.
    replace (length t <? length (c :: t)) with true
      by (symmetry; apply Nat.ltb_lt; cbn [length]; lia).
    change (star_iter (rmatch (Chr cs)) (length t) (MState (Some c) t caps))
      with (rmatch (Star (Chr cs)) (MState (Some c) t caps)).
    now rewrite IH.
Qed.

Lemma run_states_hd cs :
  forall rest prev caps,
    exists tl,
      run_states cs prev rest caps
      = MState (fst (run_end cs prev rest)) (snd (run_end cs prev rest)) caps :: tl.
Proof.
  induction rest as [|c t IH]; intros prev caps; cbn [run_states run_end].
  - now exists [].
  - destruct (in_cset cs c).
    + destruct (IH (Some c) caps) as [tl ->]. eexists. reflexivity.
    + now exists [].
Qed.

Lemma flat_map_run_states cs (f : mstate -> list mstate) caps :
  (forall p c t, in_cset cs c = true -> f (MState p (c :: t) caps) = []) ->
  forall rest prev,
    flat_map f (run_states cs prev rest caps)
    = f (MState (fst (run_end cs prev rest)) (snd (run_end cs prev rest)) caps).
Proof.
  intros Hf. induction rest as [|c t IH]; intros prev; cbn [run_states run_end].
  - cbn [flat_map]. now rewrite app_nil_r.
  - destruct (in_cset cs c) eqn:E.
    + rewrite flat_map_app, IH. cbn [flat_map]. rewrite Hf by exact E.
      now rewrite !app_nil_r.
    + cbn [flat_map]. now rewrite app_nil_r.
Qed.

Lemma run_end_suffix cs :
  forall rest prev, suffix_of (snd (run_end cs prev rest)) rest.
Proof.
  induction rest as [|c t IH]; intros prev; cbn [run_end].
  - apply suffix_refl.
  - destruct (in_cset cs c).
    + destruct (IH (Some c)) as [w Hw]. exists (c :: w). cbn [app]. now f_equal.
    + apply suffix_refl.
Qed.

Lemma run_end_stops cs :
  forall rest prev c t,
    snd (run_end cs prev rest) = c :: t -> in_cset cs c = false.
Proof.
  induction rest as [|d u IH]; intros prev c t H; cbn [run_end] in H.
  - discriminate.
  - destruct (in_cset cs d) eqn:E.
    + eapply IH; eauto.
    + cbn [snd] in H. now injection H as -> _.
Qed.

Lemma rmatch_seq_chr cs b prev rest caps :
  rmatch (Seq (Chr cs) b) (MState prev rest caps)
  = match rest with
    | c :: t => if in_cset cs c then rmatch b (MState (Some c) t caps) else []
    | [] => []
    end.
Proof.
  rewrite rmatch_seq, rmatch_chr. cbn [ms_rest ms_caps].
  destruct rest as [|c t]; [reflexivity|].
  destruct (in_cset cs c); [|reflexivity].
  cbn [flat_map]. now rewrite app_nil_r.
Qed.

Lemma rmatch_plus_chr cs prev rest caps :
  rmatch (Plus (Chr cs)) (MState prev rest caps)
  = match rest with
    | c :: t => if in_cset cs c then run_states cs (Some c) t caps else []
    | [] => []
    end.
Proof.
  unfold Plus. rewrite rmatch_seq_chr.
  destruct rest as [|c t]; [reflexivity|].
  destruct (in_cset cs c); [|reflexivity].
  apply rmatch_star_chr.
Qed.

Lemma never_empty_seq_chr cs b : never_empty (Seq (Chr cs) b).
Proof.
  intros prev rest st' H. rewrite rmatch_seq_chr in H.
  destruct rest as [|c t]; [destruct H|].
  destruct (in_cset cs c); [|destruct H].
  apply rmatch_suffix, suffix_length in H. cbn [ms_rest length] in *. lia.
Qed.

Lemma run_states_suffix cs :
  forall rest prev caps st',
    In st' (run_states cs prev rest caps) -> suffix_of (ms_rest st') rest.
Proof.
  intros rest prev caps st' H. rewrite <- rmatch_star_chr in H.
  now apply rmatch_suffix in H.
Qed.

(** ** Line comments *)

Lemma line_comment_never_empty : never_empty line_comment_pattern.
Proof. apply never_empty_seq_chr. Qed.

Lemma line_comment_hd prev rest :
  hd_error (rmatch line_comment_pattern (MState prev rest []))
  = match rest with
    | c :: d :: t =>
        if Ascii.eqb c "/" && Ascii.eqb d "/"
        then Some (MState (fst (run_end CDot (Some "/"%char) t))
                          (snd (run_end CDot (Some "/"%char) t)) [])
        else None
    | _ => None
    end.
Proof.
  unfold line_comment_pattern. cbn [seqs].
  change (ch "/") with (Chr (CLit "/"%char)).
  rewrite rmatch_seq_chr.
  destruct rest as [|c rest]; [reflexivity|]. cbn [in_cset].
  destruct (Ascii.eqb c "/") eqn:Ec; [|now destruct rest].
  rewrite rmatch_seq_chr.
  destruct rest as [|d t]; [reflexivity|]. cbn [in_cset andb].
  destruct (Ascii.eqb d "/") eqn:Ed; [|reflexivity].
  apply Ascii.eqb_eq in Ed. subst d.
  rewrite rmatch_star_chr.
  destruct (run_states_hd CDot t (Some "/"%char) []) as [tl ->]. reflexivity.
Qed.

Lemma has_dslash_cons c X :
  has_dslash (c :: X) = (Ascii.eqb c "/" && hd_is "/" X) || has_dslash X.
Proof.
  unfold has_dslash. cbn [occurs]. f_equal.
  change (L "//") with ["/"%char; "/"%char]. cbn [starts_with hd_is].
  rewrite (Ascii.eqb_sym "/" c).
  destruct X as [|x X]; cbn [starts_with hd_is].
  - now rewrite andb_false_r.
  - now rewrite andb_true_r, (Ascii.eqb_sym "/" x).
Qed.

Lemma has_dslash_nil : has_dslash [] = false.
Proof. reflexivity. Qed.

Lemma line_sub_head prev rest :
  hd_is "/" rest = false ->
  hd_is "/" (sub_str line_comment_pattern [] prev rest) = false.
Proof.
  intros H. rewrite sub_str_unfold by apply line_comment_never_empty.
  rewrite line_comment_hd.
  destruct rest as [|c [|d t]]; [reflexivity| |]; cbn [hd_is] in H.
  - cbn [hd_is]. exact H.
  - rewrite H. cbn [andb hd_is]. exact H.
Qed.

Lemma line_sub_no_dslash :
  forall n rest prev,
    length rest <= n ->
    has_dslash (sub_str line_comment_pattern [] prev rest) = false.
Proof.
  induction n as [|n IH]; intros rest prev Hn.
  - destruct rest; [|cbn [length] in Hn; lia].
    rewrite sub_str_unfold by apply line_comment_never_empty. reflexivity.
  - rewrite sub_str_unfold by apply line_comment_never_empty.
    rewrite line_comment_hd.
    destruct rest as [|c [|d t]].
    + reflexivity.
    + rewrite has_dslash_cons, IH by (cbn [length]; lia).
      rewrite line_sub_head by reflexivity.
      now rewrite andb_false_r.
    + destruct (Ascii.eqb c "/" && Ascii.eqb d "/") eqn:E.
      * cbn [app ms_prev ms_rest]. apply IH.
        pose proof (suffix_length (run_end_suffix CDot t (Some "/"%char))).
        cbn [length] in Hn. lia.
      * rewrite has_dslash_cons, IH by (cbn [length] in *; lia).
        rewrite orb_false_r.
        destruct (Ascii.eqb c "/"); [|reflexivity].
        cbn [andb] in E. rewrite line_sub_head; [reflexivity|].
        cbn [hd_is]. exact E.
Qed.

(** ** Repetition of a composite pattern *)

Lemma star_iter_fuel (step : mstate -> list mstate) :
  forall f1 f2 st,
    length (ms_rest st) <= f1 -> length (ms_rest st) <= f2 ->
    star_iter step f1 st = star_iter step f2 st.
Proof.
  assert (Hz : forall f st, length (ms_rest st) = 0 -> star_iter step f st = [st]).
  { intros [|f] st H0; [reflexivity|]. cbn [star_iter]. rewrite H0.
    induction (step st) as [|x l IHl]; [reflexivity|].
    cbn [flat_map].
    replace (length (ms_rest x) <? 0) with false
      by (symmetry; apply Nat.ltb_ge; lia).
    exact IHl. }
  induction f1 as [|k1 IH]; intros f2 st H1 H2.
  - rewrite Hz by lia. symmetry. apply Hz. lia.
  - destruct f2 as [|k2]; [rewrite (Hz (S k1)) by lia; reflexivity|].
    cbn [star_iter]. f_equal.
    induction (step st) as [|x l IHl]; [reflexivity|].
    cbn [flat_map]. rewrite IHl. f_equal.
    destruct (length (ms_rest x) <? length (ms_rest st)) eqn:E; [|reflexivity].
    apply Nat.ltb_lt in E. apply IH; lia.
Qed.

Lemma rmatch_star_unfold a st :
  rmatch (Star a) st
  = flat_map (fun st' =>
                if length (ms_rest st') <? length (ms_rest st)
                then rmatch (Star a) st' else [])
             (rmatch a st)
    ++ [st].
Proof.
  change (rmatch (Star a) st) with (star_iter (rmatch a) (length (ms_rest st)) st).
  rewrite (star_iter_fuel (rmatch a) (f1 := length (ms_rest st))
                          (f2 := S (length (ms_rest st)))) by lia.
  cbn [star_iter]. f_equal.
  induction (rmatch a st) as [|x l IHl]; [reflexivity|].
  cbn [flat_map]. rewrite IHl. f_equal.
  destruct (length (ms_rest x) <? length (ms_rest st)) eqn:E; [|reflexivity].
  apply Nat.ltb_lt in E.
  change (rmatch (Star a) x) with (star_iter (rmatch a) (length (ms_rest x)) x).
  apply star_iter_fuel; lia.
Qed.

Lemma flat_map_flat_map (A B C : Type) (f : A -> list B) (g : B -> list C) l :
  flat_map g (flat_map f l) = flat_map (fun x => flat_map g (f x)) l.
Proof.
  induction l as [|x l IH]; [reflexivity|].
  cbn [flat_map]. now rewrite flat_map_app, IH.
Qed.

Lemma flat_map_ext_In (A B : Type) (f g : A -> list B) l :
  (forall x, In x l -> f x = g x) -> flat_map f l = flat_map g l.
Proof.
  induction l as [|x l IH]; intros H; [reflexivity|].
  cbn [flat_map]. rewrite H by now left.
  rewrite IH; [reflexivity|]. intros y Hy. apply H. now right.
Qed.

(** [a*b] when every iteration of [a] consumes something: the results
    of [a], each followed by [a*b] again, then [b] alone. *)
Lemma rmatch_star_then a b st :
  (forall x, In x (rmatch a st) -> length (ms_rest x) < length (ms_rest st)) ->
  rmatch (Seq (Star a) b) st
  = flat_map (rmatch (Seq (Star a) b)) (rmatch a st) ++ rmatch b st.
Proof.
  intros Hadv. rewrite rmatch_seq, rmatch_star_unfold, flat_map_app.
  cbn [flat_map]. rewrite app_nil_r. f_equal.
  rewrite flat_map_flat_map. apply flat_map_ext_In.
  intros x Hx. apply Hadv in Hx.
  replace (length (ms_rest x) <? length (ms_rest st)) with true
    by (symmetry; now apply Nat.ltb_lt).
  now rewrite rmatch_seq.
Qed.

(** ** Block comments *)

Lemma block_comment_pattern_parts :
  block_comment_pattern
  = Seq (Chr (CLit "/")) (Seq (Chr (CLit "*")) bc_after).
Proof. reflexivity. Qed.

Lemma in_bc_nostar c : in_cset bc_nostar c = negb (Ascii.eqb c "*").
Proof.
  unfold bc_nostar. cbn [in_cset]. change (L "*") with ["*"%char].
  cbn [mem_ascii]. now rewrite orb_false_r.
Qed.

Lemma in_bc_star c : in_cset bc_star c = Ascii.eqb c "*".
Proof. reflexivity. Qed.

Lemma in_bc_noslashstar c :
  in_cset (CNoneOf (L "/*")) c = negb (Ascii.eqb c "/" || Ascii.eqb c "*").
Proof.
  cbn [in_cset]. change (L "/*") with ["/"%char; "*"%char].
  cbn [mem_ascii]. now rewrite orb_false_r.
Qed.

Lemma seq_chr_advances cs b st x :
  In x (rmatch (Seq (Chr cs) b) st) -> length (ms_rest x) < length (ms_rest st).
Proof.
  destruct st as [p rest caps]. rewrite rmatch_seq_chr. intros H.
  destruct rest as [|c t]; [destruct H|].
  destruct (in_cset cs c); [|destruct H].
  apply rmatch_suffix, suffix_length in H. cbn [ms_rest length] in *. lia.
Qed.

Lemma bc_plus_star_fails X p c t caps :
  in_cset bc_nostar c = true ->
  rmatch (Seq (Plus (Chr bc_star)) X) (MState p (c :: t) caps) = [].
Proof.
  intros H. rewrite in_bc_nostar in H. apply negb_true_iff in H.
  rewrite rmatch_seq, rmatch_plus_chr, in_bc_star, H. reflexivity.
Qed.

Lemma bc_plus_star_alone_fails p c t caps :
  in_cset bc_nostar c = true ->
  rmatch (Plus (Chr bc_star)) (MState p (c :: t) caps) = [].
Proof.
  intros H. rewrite in_bc_nostar in H. apply negb_true_iff in H.
  rewrite rmatch_plus_chr, in_bc_star, H. reflexivity.
Qed.

Lemma bc_tail_eq p w caps :
  rmatch bc_tail (MState p w caps)
  = match w with
    | [] => []
    | c :: w' =>
        if Ascii.eqb c "/" then [MState (Some c) w' caps]
        else if Ascii.eqb c "*" then []
        else rmatch bc_after (MState (Some c) w' caps)
    end.
Proof.
  unfold bc_tail. rewrite rmatch_star_then by (intros x; apply seq_chr_advances).
  unfold bc_group at 2. rewrite rmatch_seq_chr, rmatch_chr. cbn [ms_rest ms_caps].
  destruct w as [|c w']; [reflexivity|].
  rewrite in_bc_noslashstar. cbn [in_cset].
  destruct (Ascii.eqb c "/") eqn:E1; [reflexivity|].
  destruct (Ascii.eqb c "*") eqn:E2; [reflexivity|].
  cbn [orb negb]. rewrite app_nil_r.
  rewrite rmatch_seq, rmatch_star_chr.
  rewrite flat_map_run_states by (intros; now apply bc_plus_star_alone_fails).
  unfold bc_after. rewrite rmatch_seq, rmatch_star_chr.
  rewrite flat_map_run_states by (intros; now apply bc_plus_star_fails).
  now rewrite rmatch_seq.
Qed.

Lemma bc_tail_star_fails p c t caps :
  in_cset bc_star c = true -> rmatch bc_tail (MState p (c :: t) caps) = [].
Proof.
  rewrite in_bc_star. intros H. rewrite bc_tail_eq.
  apply Ascii.eqb_eq in H. subst c. reflexivity.
Qed.

Lemma bc_after_eq p u caps :
  rmatch bc_after (MState p u caps)
  = match snd (run_end bc_nostar p u) with
    | [] => []
    | _ :: v1 =>
        rmatch bc_tail
          (MState (fst (run_end bc_star (Some "*"%char) v1))
                  (snd (run_end bc_star (Some "*"%char) v1)) caps)
    end.
Proof.
  unfold bc_after. rewrite rmatch_seq, rmatch_star_chr.
  rewrite flat_map_run_states by (intros; now apply bc_plus_star_fails).
  rewrite rmatch_seq, rmatch_plus_chr.
  destruct (snd (run_end bc_nostar p u)) as [|c v1] eqn:E; [reflexivity|].
  pose proof (run_end_stops _ _ _ E) as Hc.
  rewrite in_bc_nostar in Hc. apply negb_false_iff in Hc.
  rewrite in_bc_star, Hc. apply Ascii.eqb_eq in Hc. subst c.
  apply flat_map_run_states. intros; now apply bc_tail_star_fails.
Qed.

Lemma close_after_skip_nostar :
  forall u p, close_after u = close_after (snd (run_end bc_nostar p u)).
Proof.
  induction u as [|c t IH]; intros p; cbn [run_end].
  - reflexivity.
  - rewrite in_bc_nostar. destruct (Ascii.eqb c "*") eqn:E; cbn [negb snd].
    + reflexivity.
    + cbn [close_after]. rewrite E. cbn [andb]. apply IH.
Qed.

Lemma close_after_stars :
  forall v1 p,
    close_after ("*"%char :: v1)
    = match snd (run_end bc_star p v1) with
      | [] => None
      | c :: w' => if Ascii.eqb c "/" then Some w' else close_after w'
      end.
Proof.
  induction v1 as [|c t IH]; intros p.
  - reflexivity.
  - cbn [run_end]. rewrite in_bc_star.
    destruct (Ascii.eqb c "*") eqn:E.
    + apply Ascii.eqb_eq in E. subst c. rewrite <- (IH (Some "*"%char)).
      reflexivity.
    + cbn [snd]. cbn [close_after hd_is Ascii.eqb].
      change (Ascii.eqb "*" "*") with true. cbn [andb].
      destruct (Ascii.eqb c "/") eqn:E2; [reflexivity|].
      rewrite E. reflexivity.
Qed.

Lemma bc_after_close :
  forall n u p caps,
    length u <= n ->
    rmatch bc_after (MState p u caps)
    = match close_after u with
      | Some r => [MState (Some "/"%char) r caps]
      | None => []
      end.
Proof.
  induction n as [|n IH]; intros u p caps Hn.
  - destruct u; [|cbn [length] in Hn; lia]. now rewrite bc_after_eq.
  - rewrite bc_after_eq, (close_after_skip_nostar u p).
    pose proof (suffix_length (run_end_suffix bc_nostar u p)) as H1.
    destruct (snd (run_end bc_nostar p u)) as [|c v1] eqn:E; [reflexivity|].
    pose proof (run_end_stops _ _ _ E) as Hc.
    rewrite in_bc_nostar in Hc. apply negb_false_iff, Ascii.eqb_eq in Hc. subst c.
    rewrite (close_after_stars v1 (Some "*"%char)).
    pose proof (suffix_length (run_end_suffix bc_star v1 (Some "*"%char))) as H2.
    rewrite bc_tail_eq.
    destruct (snd (run_end bc_star (Some "*"%char) v1)) as [|c w'] eqn:E2;
      [reflexivity|].
    pose proof (run_end_stops _ _ _ E2) as Hc2. rewrite in_bc_star in Hc2.
    destruct (Ascii.eqb c "/") eqn:E3.
    + apply Ascii.eqb_eq in E3. now subst c.
    + rewrite Hc2. apply IH. cbn [length] in *. lia.
Qed.

Lemma block_comment_never_empty : never_empty block_comment_pattern.
Proof. apply never_empty_seq_chr. Qed.

Lemma block_comment_hd prev rest :
  hd_error (rmatch block_comment_pattern (MState prev rest []))
  = match block_at rest with
    | Some r => Some (MState (Some "/"%char) r [])
    | None => None
    end.
Proof.
  rewrite block_comment_pattern_parts, rmatch_seq_chr. unfold block_at.
  destruct rest as [|c rest]; [reflexivity|]. cbn [in_cset].
  destruct (Ascii.eqb c "/"); [|now destruct rest].
  rewrite rmatch_seq_chr.
  destruct rest as [|d u]; [reflexivity|]. cbn [in_cset andb].
  destruct (Ascii.eqb d "*"); [|reflexivity].
  rewrite (@bc_after_close (length u)) by lia.
  now destruct (close_after u).
Qed.

Lemma block_sub_unfold prev rest :
  sub_str block_comment_pattern [] prev rest
  = match block_at rest with
    | Some r => sub_str block_comment_pattern [] (Some "/"%char) r
    | None =>
        match rest with
        | [] => []
        | c :: t => c :: sub_str block_comment_pattern [] (Some c) t
        end
    end.
Proof.
  rewrite sub_str_unfold by apply block_comment_never_empty.
  rewrite block_comment_hd. now destruct (block_at rest).
Qed.

Lemma line_sub_unfold prev rest :
  sub_str line_comment_pattern [] prev rest
  = match rest with
    | c :: d :: t =>
        if Ascii.eqb c "/" && Ascii.eqb d "/"
        then sub_str line_comment_pattern []
                     (fst (run_end CDot (Some "/"%char) t))
                     (snd (run_end CDot (Some "/"%char) t))
        else c :: sub_str line_comment_pattern [] (Some c) (d :: t)
    | [c] => [c]
    | [] => []
    end.
Proof.
  rewrite sub_str_unfold by apply line_comment_never_empty.
  rewrite line_comment_hd.
  destruct rest as [|c [|d t]]; [reflexivity| |].
  - reflexivity.
  - now destruct (Ascii.eqb c "/" && Ascii.eqb d "/").
Qed.

Lemma has_dslash_tail c X : has_dslash (c :: X) = false -> has_dslash X = false.
Proof. rewrite has_dslash_cons. intros H. now apply orb_false_iff in H. Qed.

Lemma has_dslash_suffix s t :
  suffix_of s t -> has_dslash t = false -> has_dslash s = false.
Proof.
  intros [w ->]. induction w as [|c w IH]; intros H; [exact H|].
  apply IH. eapply has_dslash_tail. exact H.
Qed.

Lemma hd_is_true c s : hd_is c s = true -> exists t, s = c :: t.
Proof.
  destruct s as [|x t]; cbn [hd_is]; intros H; [discriminate|].
  apply Ascii.eqb_eq in H. subst x. now exists t.
Qed.

Lemma close_after_props :
  forall u r,
    close_after u = Some r ->
    suffix_of r u /\ length r < length u
    /\ (hd_is "/" r = true -> has_dslash u = true).
Proof.
  induction u as [|c t IH]; intros r H; cbn [close_after] in H; [discriminate|].
  destruct (Ascii.eqb c "*" && hd_is "/" t) eqn:E.
  - apply andb_true_iff in E. destruct E as [_ E].
    destruct (hd_is_true _ _ E) as [t' ->]. cbn [skipn] in H. injection H as <-.
    repeat split.
    + now exists [c; "/"%char].
    + cbn [length]. lia.
    + intros Hr. rewrite has_dslash_cons, has_dslash_cons, Hr.
      cbn [Ascii.eqb andb]. change (Ascii.eqb "/" "/") with true.
      cbn [andb orb]. now rewrite orb_true_r.
  - destruct (IH _ H) as (Hs & Hl & Hd). repeat split.
    + destruct Hs as [w ->]. now exists (c :: w).
    + cbn [length]. lia.
    + intros Hr. rewrite has_dslash_cons, (Hd Hr). now rewrite orb_true_r.
Qed.

Lemma block_at_props t r :
  block_at t = Some r ->
  suffix_of r t /\ length r < length t /\ hd_is "/" t = true
  /\ (hd_is "/" r = true -> has_dslash t = true).
Proof.
  unfold block_at. destruct t as [|c [|d u]]; try discriminate.
  destruct (Ascii.eqb c "/") eqn:Ec; [|discriminate].
  destruct (Ascii.eqb d "*") eqn:Ed; [|discriminate]. cbn [andb]. intros H.
  destruct (close_after_props _ H) as (Hs & Hl & Hd). repeat split.
  - destruct Hs as [w ->]. now exists (c :: d :: w).
  - cbn [length]. lia.
  - exact Ec.
  - intros Hr. rewrite !has_dslash_cons, (Hd Hr). now rewrite !orb_true_r.
Qed.

Lemma block_at_no_slash t : hd_is "/" t = false -> block_at t = None.
Proof.
  unfold block_at. destruct t as [|c [|d u]]; try reflexivity.
  cbn [hd_is]. now intros ->.
Qed.

Lemma block_sub_head_keep p t :
  hd_is "/" t = false -> hd_is "/" (sub_str block_comment_pattern [] p t) = false.
Proof.
  intros H. rewrite block_sub_unfold, (block_at_no_slash _ H).
  now destruct t.
Qed.

Lemma block_sub_head p t :
  has_dslash t = false ->
  hd_is "/" (sub_str block_comment_pattern [] p t) = true ->
  hd_is "/" t = true.
Proof.
  intros Hd H. rewrite block_sub_unfold in H.
  destruct (block_at t) as [r|] eqn:E.
  - destruct (block_at_props _ E) as (_ & _ & Ht & Hr). exact Ht.
  - now destruct t.
Qed.

Lemma block_sub_no_dslash :
  forall n t p,
    length t <= n -> has_dslash t = false ->
    has_dslash (sub_str block_comment_pattern [] p t) = false.
Proof.
  induction n as [|n IH]; intros t p Hn Hd; rewrite block_sub_unfold.
  - empty_text t Hn.
  - destruct (block_at t) as [r|] eqn:E.
    + destruct (block_at_props _ E) as (Hs & Hl & _ & _).
      apply IH; [lia | eapply has_dslash_suffix; eauto].
    + destruct t as [|c t']; [reflexivity|].
      pose proof (has_dslash_tail _ _ Hd) as Hd'.
      rewrite has_dslash_cons, IH by (cbn [length] in Hn; auto; lia).
      rewrite orb_false_r.
      destruct (Ascii.eqb c "/") eqn:Ec; [|reflexivity]. cbn [andb].
      destruct (hd_is "/" (sub_str block_comment_pattern [] (Some c) t')) eqn:Eh;
        [|reflexivity].
      apply block_sub_head in Eh; [|exact Hd'].
      rewrite has_dslash_cons, Ec, Eh in Hd. discriminate.
Qed.

Lemma close_after_cons_none c t :
  close_after (c :: t) = None ->
  Ascii.eqb c "*" && hd_is "/" t = false /\ close_after t = None.
Proof.
  cbn [close_after]. destruct (Ascii.eqb c "*" && hd_is "/" t); [discriminate|].
  now split.
Qed.

Lemma block_sub_close_none :
  forall n t p,
    length t <= n -> has_dslash t = false -> close_after t = None ->
    close_after (sub_str block_comment_pattern [] p t) = None.
Proof.
  induction n as [|n IH]; intros t p Hn Hd Hc; rewrite block_sub_unfold.
  - empty_text t Hn.
  - destruct (block_at t) as [r|] eqn:E.
    + exfalso. unfold block_at in E. destruct t as [|c [|d u]]; try discriminate.
      destruct (Ascii.eqb c "/" && Ascii.eqb d "*"); [|discriminate].
      apply close_after_cons_none in Hc. destruct Hc as [_ Hc].
      apply close_after_cons_none in Hc. destruct Hc as [_ Hc]. congruence.
    + destruct t as [|c t']; [reflexivity|].
      pose proof (has_dslash_tail _ _ Hd) as Hd'.
      apply close_after_cons_none in Hc. destruct Hc as [Hc1 Hc2].
      cbn [close_after]. rewrite IH by (cbn [length] in Hn; auto; lia).
      destruct (Ascii.eqb c "*") eqn:Ec; [|reflexivity]. cbn [andb] in *.
      destruct (hd_is "/" (sub_str block_comment_pattern [] (Some c) t')) eqn:Eh;
        [|reflexivity].
      apply block_sub_head in Eh; [|exact Hd']. congruence.
Qed.

Lemma block_sub_no_block :
  forall n t p,
    length t <= n -> has_dslash t = false ->
    has_block (sub_str block_comment_pattern [] p t) = false.
Proof.
  induction n as [|n IH]; intros t p Hn Hd; rewrite block_sub_unfold.
  - empty_text t Hn.
  - destruct (block_at t) as [r|] eqn:E.
    + destruct (block_at_props _ E) as (Hs & Hl & _ & _).
      apply IH; [lia | eapply has_dslash_suffix; eauto].
    + destruct t as [|c t']; [reflexivity|].
      pose proof (has_dslash_tail _ _ Hd) as Hd'.
      cbn [has_block]. rewrite IH by (cbn [length] in Hn; auto; lia).
      destruct (block_at (c :: sub_str block_comment_pattern [] (Some c) t'))
        as [r|] eqn:Eb; [|reflexivity].
      exfalso. unfold block_at in Eb.
      rewrite block_sub_unfold in Eb.
      destruct (block_at t') as [r'|] eqn:E'.
      { destruct (block_at_props _ E') as (_ & _ & Ht' & _).
        destruct (Ascii.eqb c "/") eqn:Ec.
        - rewrite has_dslash_cons, Ec, Ht' in Hd. discriminate.
        - destruct (sub_str block_comment_pattern [] (Some "/"%char) r');
            discriminate. }
      destruct t' as [|d t'']; [discriminate|].
      destruct (Ascii.eqb c "/" && Ascii.eqb d "*") eqn:Ecd; [|discriminate].
      unfold block_at in E. rewrite Ecd in E.
      rewrite (@block_sub_close_none n) in Eb; [discriminate | | | exact E].
      * cbn [length] in Hn. lia.
      * eapply has_dslash_tail; eauto.
Qed.

(** After [remove_comments] no [//] and no block comment is left. *)
Lemma remove_comments_clean T :
  has_dslash (remove_comments T) = false /\ has_block (remove_comments T) = false.
Proof.
  unfold remove_comments. rewrite !re_sub_sub_str.
  pose proof (@line_sub_no_dslash (length T) T None (le_n _)) as H.
  split.
  - eapply block_sub_no_dslash; eauto.
  - eapply block_sub_no_block; eauto.
Qed.

(** Without [//] and without a block comment, [remove_comments] changes
    nothing. *)
Lemma line_sub_clean :
  forall t p, has_dslash t = false -> sub_str line_comment_pattern [] p t = t.
Proof.
  induction t as [|c t IH]; intros p H; rewrite line_sub_unfold; [reflexivity|].
  destruct t as [|d t]; [reflexivity|].
  pose proof H as H'. rewrite has_dslash_cons in H'. cbn [hd_is] in H'.
  apply orb_false_iff in H'. destruct H' as [H1 H2].
  rewrite H1. f_equal. now apply IH.
Qed.

Lemma block_sub_clean :
  forall t p, has_block t = false -> sub_str block_comment_pattern [] p t = t.
Proof.
  induction t as [|c t IH]; intros p H; rewrite block_sub_unfold; [reflexivity|].
  cbn [has_block] in H.
  destruct (block_at (c :: t)); [discriminate|].
  f_equal. now apply IH.
Qed.

Lemma remove_comments_clean_id T :
  has_dslash T = false -> has_block T = false -> remove_comments T = T.
Proof.
  intros H1 H2. unfold remove_comments. rewrite !re_sub_sub_str.
  rewrite line_sub_clean by exact H1. now apply block_sub_clean.
Qed.

(** ** Whitespace *)

Lemma rmatch_bol st :
  rmatch Bol st = match ms_prev st with None => [st] | Some _ => [] end.
Proof. reflexivity. Qed.

Lemma rmatch_eol st :
  rmatch Eol st
  = match ms_rest st with
    | [] => [st]
    | [c] => if Ascii.eqb c nl then [st] else []
    | _ => []
    end.
Proof. reflexivity. Qed.

Lemma run_end_snd cs :
  forall t p q, snd (run_end cs p t) = snd (run_end cs q t).
Proof.
  induction t as [|c t IH]; intros p q; cbn [run_end]; [reflexivity|].
  destruct (in_cset cs c); [apply IH | reflexivity].
Qed.

Lemma is_space_nl : is_space nl = true.
Proof. reflexivity. Qed.

Lemma eol_run_states_none caps :
  forall t p,
    snd (run_end CSpace p t) <> [] ->
    flat_map (rmatch Eol) (run_states CSpace p t caps) = [].
Proof.
  induction t as [|c t IH]; intros p H; cbn [run_end run_states] in *.
  - cbn [snd] in H. congruence.
  - cbn [in_cset] in *. destruct (is_space c) eqn:E.
    + rewrite flat_map_app, IH by exact H. cbn [flat_map app].
      rewrite rmatch_eol. cbn [ms_rest].
      destruct t as [|d t]; [|reflexivity].
      cbn [run_end snd] in H. congruence.
    + cbn [flat_map]. rewrite rmatch_eol. cbn [ms_rest].
      destruct t as [|d t]; [|reflexivity].
      destruct (Ascii.eqb c nl) eqn:En; [|reflexivity].
      apply Ascii.eqb_eq in En. subst c. rewrite is_space_nl in E. discriminate.
Qed.

Lemma eol_run_states_end caps t p :
  snd (run_end CSpace p t) = [] ->
  hd_error (flat_map (rmatch Eol) (run_states CSpace p t caps))
  = Some (MState (fst (run_end CSpace p t)) [] caps).
Proof.
  intros H. destruct (run_states_hd CSpace t p caps) as [tl ->].
  cbn [flat_map]. rewrite rmatch_eol. cbn [ms_rest]. rewrite H. reflexivity.
Qed.

Lemma trim_never_empty : never_empty trim_pattern.
Proof.
  intros prev rest st' H. unfold trim_pattern in H. rewrite rmatch_alt in H.
  apply in_app_or in H. destruct H as [H|H]; rewrite rmatch_seq in H;
    apply in_flat_map in H; destruct H as [mid [Hmid H]].
  - rewrite rmatch_bol in Hmid. cbn [ms_prev] in Hmid.
    destruct prev; [destruct Hmid|]. destruct Hmid as [<- | []].
    now apply rmatch_plus_chr_advances in H.
  - apply rmatch_plus_chr_advances in Hmid. cbn [ms_rest] in Hmid.
    apply rmatch_suffix, suffix_length in H. lia.
Qed.

Lemma trim_hd prev rest :
  hd_error (rmatch trim_pattern (MState prev rest []))
  = match rest with
    | [] => None
    | c :: t =>
        if is_space c then
          match prev with
          | None => Some (MState (fst (run_end CSpace (Some c) t))
                                 (after_spaces c t) [])
          | Some _ =>
              match after_spaces c t with
              | [] => Some (MState (fst (run_end CSpace (Some c) t)) [] [])
              | _ => None
              end
          end
        else None
    end.
Proof.
  unfold trim_pattern, after_spaces.
  rewrite rmatch_alt, !rmatch_seq, rmatch_bol. cbn [ms_prev].
  unfold ws. rewrite rmatch_plus_chr. cbn [in_cset].
  destruct rest as [|c t].
  - now destruct prev.
  - destruct (is_space c) eqn:E.
    + destruct prev as [q|].
      * cbn [flat_map app].
        destruct (snd (run_end CSpace (Some c) t)) as [|x v] eqn:Ev.
        -- rewrite eol_run_states_end by exact Ev. reflexivity.
        -- rewrite eol_run_states_none; [reflexivity|]. rewrite Ev. discriminate.
      * cbn [flat_map]. rewrite rmatch_plus_chr. cbn [in_cset]. rewrite E.
        destruct (run_states_hd CSpace t (Some c) []) as [tl ->]. reflexivity.
    + destruct prev as [q|]; [reflexivity|].
      cbn [flat_map]. rewrite rmatch_plus_chr. cbn [in_cset]. rewrite E.
      reflexivity.
Qed.

Lemma sub_str_nil r repl prev : never_empty r -> sub_str r repl prev [] = [].
Proof.
  intros Hne. rewrite sub_str_unfold by exact Hne.
  destruct (hd_error (rmatch r (MState prev [] []))) as [st'|] eqn:E;
    [|reflexivity].
  assert (Hin : In st' (rmatch r (MState prev [] []))).
  { destruct (rmatch r (MState prev [] [])); [discriminate|].
    injection E as ->. now left. }
  apply Hne in Hin. cbn [length] in Hin. lia.
Qed.

Lemma trim_sub_inner :
  forall rest p, sub_str trim_pattern [] (Some p) rest = trim_rest rest.
Proof.
  induction rest as [|c t IH]; intros p.
  - apply sub_str_nil, trim_never_empty.
  - rewrite sub_str_unfold by apply trim_never_empty. rewrite trim_hd.
    cbn [trim_rest]. destruct (is_space c).
    + destruct (after_spaces c t).
      * cbn [app ms_prev ms_rest]. apply sub_str_nil, trim_never_empty.
      * now rewrite IH.
    + now rewrite IH.
Qed.

Lemma run_end_fst_some cs :
  forall t c, exists q, fst (run_end cs (Some c) t) = Some q.
Proof.
  induction t as [|d t IH]; intros c; cbn [run_end].
  - now exists c.
  - destruct (in_cset cs d); [apply IH | now exists c].
Qed.

Lemma trim_sub_start rest :
  sub_str trim_pattern [] None rest
  = match rest with
    | [] => []
    | c :: t => if is_space c then trim_rest (after_spaces c t)
                else c :: trim_rest t
    end.
Proof.
  rewrite sub_str_unfold by apply trim_never_empty. rewrite trim_hd.
  destruct rest as [|c t]; [reflexivity|].
  destruct (is_space c).
  - cbn [app ms_prev ms_rest].
    destruct (run_end_fst_some CSpace t c) as [q ->]. apply trim_sub_inner.
  - now rewrite trim_sub_inner.
Qed.

Lemma spaces_never_empty : never_empty spaces_pattern.
Proof. apply never_empty_seq_chr. Qed.

Lemma spaces_sub_unfold prev rest :
  sub_str spaces_pattern (L " ") prev rest
  = match rest with
    | [] => []
    | c :: t =>
        if is_space c
        then " "%char :: sub_str spaces_pattern (L " ")
                           (fst (run_end CSpace (Some c) t)) (after_spaces c t)
        else c :: sub_str spaces_pattern (L " ") (Some c) t
    end.
Proof.
  rewrite sub_str_unfold by apply spaces_never_empty.
  unfold spaces_pattern, ws. rewrite rmatch_plus_chr. cbn [in_cset].
  destruct rest as [|c t]; [reflexivity|].
  destruct (is_space c); [|reflexivity].
  destruct (run_states_hd CSpace t (Some c) []) as [tl ->]. reflexivity.
Qed.

Lemma after_spaces_suffix c t : suffix_of (after_spaces c t) t.
Proof. apply run_end_suffix. Qed.

Lemma after_spaces_hd c t : hd_space (after_spaces c t) = false.
Proof.
  unfold after_spaces.
  destruct (snd (run_end CSpace (Some c) t)) as [|x v] eqn:E; [reflexivity|].
  apply run_end_stops in E. exact E.
Qed.

Lemma after_spaces_cons c d t :
  after_spaces c (d :: t) = if is_space d then after_spaces d t else d :: t.
Proof. unfold after_spaces. cbn [run_end in_cset]. now destruct (is_space d). Qed.

Lemma after_spaces_trim_rest c :
  forall t x v,
    after_spaces c t = x :: v ->
    exists v', after_spaces c (trim_rest t) = x :: v'.
Proof.
  intros t. revert c. induction t as [|d t IH]; intros c x v H.
  - discriminate.
  - rewrite after_spaces_cons in H. cbn [trim_rest].
    destruct (is_space d) eqn:E.
    + rewrite H. rewrite after_spaces_cons, E. eapply IH; eauto.
    + injection H as <- <-. rewrite after_spaces_cons, E. eauto.
Qed.

Lemma trim_rest_no_trail : forall s, no_trail (trim_rest s) = true.
Proof.
  induction s as [|c t IH]; [reflexivity|]. cbn [trim_rest].
  destruct (is_space c) eqn:E.
  - destruct (after_spaces c t) as [|x v] eqn:Ea; [reflexivity|].
    cbn [no_trail]. rewrite E, IH.
    destruct (after_spaces_trim_rest _ _ Ea) as [v' ->]. reflexivity.
  - cbn [no_trail]. now rewrite E, IH.
Qed.

Lemma trim_rest_hd s : hd_space s = false -> hd_space (trim_rest s) = false.
Proof.
  destruct s as [|c t]; [reflexivity|]. cbn [hd_space trim_rest].
  intros E. now rewrite E.
Qed.

Lemma trim_rest_prefix : forall s, exists post, s = trim_rest s ++ post.
Proof.
  induction s as [|c t [post IH]]; [now exists []|]. cbn [trim_rest].
  destruct (is_space c).
  - destruct (after_spaces c t).
    + now exists (c :: t).
    + exists post. cbn [app]. now f_equal.
  - exists post. cbn [app]. now f_equal.
Qed.

(** The text left by the first substitution of [remove_whitespace]. *)
Lemma trim_sub_shape R :
  exists v, suffix_of v R /\ hd_space v = false
            /\ sub_str trim_pattern [] None R = trim_rest v.
Proof.
  rewrite trim_sub_start. destruct R as [|c t].
  - exists []. repeat split. apply suffix_refl.
  - destruct (is_space c) eqn:E.
    + exists (after_spaces c t). repeat split.
      * destruct (after_spaces_suffix c t) as [w Hw]. exists (c :: w).
        cbn [app]. now f_equal.
      * apply after_spaces_hd.
    + exists (c :: t). repeat split.
      * apply suffix_refl.
      * exact E.
      * cbn [trim_rest]. now rewrite E.
Qed.

Lemma no_trail_suffix s t : suffix_of s t -> no_trail t = true -> no_trail s = true.
Proof.
  intros [w ->]. induction w as [|c w IH]; intros H; [exact H|].
  cbn [app no_trail] in H. apply andb_true_iff in H. now apply IH.
Qed.

Lemma collapse_hd_space p x :
  hd_space x = false -> hd_space (sub_str spaces_pattern (L " ") p x) = false.
Proof.
  intros H. rewrite spaces_sub_unfold. destruct x as [|c t]; [reflexivity|].
  cbn [hd_space] in H. now rewrite H.
Qed.

Lemma collapse_single :
  forall n x p,
    length x <= n -> no_trail x = true ->
    single_spaces (sub_str spaces_pattern (L " ") p x) = true.
Proof.
  induction n as [|n IH]; intros x p Hn Ht; rewrite spaces_sub_unfold.
  - empty_text x Hn.
  - destruct x as [|c t]; [reflexivity|]. cbn [no_trail] in Ht.
    apply andb_true_iff in Ht. destruct Ht as [Ht1 Ht2].
    destruct (is_space c) eqn:E.
    + pose proof (after_spaces_suffix c t) as Hs.
      pose proof (after_spaces_hd c t) as Hh.
      destruct (after_spaces c t) as [|x v] eqn:Ea; [discriminate|].
      cbn [single_spaces]. change (is_space " ") with true.
      change (Ascii.eqb " " " ") with true.
      rewrite collapse_hd_space by exact Hh.
      rewrite IH; [| apply suffix_length in Hs; cbn [length] in *; lia
                   | eapply no_trail_suffix; eauto].
      rewrite spaces_sub_unfold. cbn [hd_space] in Hh. rewrite Hh. reflexivity.
    + cbn [single_spaces]. rewrite E. cbn [andb].
      apply IH; [cbn [length] in Hn; lia | exact Ht2].
Qed.

(** ** Comments are not created by whitespace normalization *)

Lemma has_dslash_prefix :
  forall a b, has_dslash (a ++ b) = false -> has_dslash a = false.
Proof.
  induction a as [|c a IH]; intros b H; [reflexivity|].
  cbn [app] in H. rewrite has_dslash_cons in *.
  apply orb_false_iff in H. destruct H as [H1 H2].
  rewrite (IH _ H2), orb_false_r.
  destruct (Ascii.eqb c "/"); [|reflexivity]. cbn [andb] in *.
  destruct a as [|d a]; [reflexivity|]. exact H1.
Qed.

Lemma has_block_suffix s t : suffix_of s t -> has_block t = false -> has_block s = false.
Proof.
  intros [w ->]. induction w as [|c w IH]; intros H; [exact H|].
  apply IH. cbn [app has_block] in H.
  now destruct (block_at (c :: w ++ s)).
Qed.

Lemma close_after_app :
  forall u r b, close_after u = Some r -> close_after (u ++ b) = Some (r ++ b).
Proof.
  induction u as [|c t IH]; intros r b H; [discriminate|].
  cbn [close_after app] in *.
  destruct t as [|d t].
  - cbn [hd_is] in H. rewrite andb_false_r in H. discriminate.
  - cbn [hd_is app] in *. destruct (Ascii.eqb c "*" && Ascii.eqb d "/").
    + cbn [skipn] in *. now injection H as <-.
    + now apply (IH r b).
Qed.

Lemma block_at_app t r b : block_at t = Some r -> block_at (t ++ b) = Some (r ++ b).
Proof.
  unfold block_at. destruct t as [|c [|d u]]; try discriminate. cbn [app].
  destruct (Ascii.eqb c "/" && Ascii.eqb d "*"); [|discriminate].
  apply close_after_app.
Qed.

Lemma has_block_prefix :
  forall a b, has_block (a ++ b) = false -> has_block a = false.
Proof.
  induction a as [|c a IH]; intros b H; [reflexivity|].
  cbn [app has_block] in *.
  destruct (block_at (c :: a)) as [r|] eqn:E.
  - change (c :: a ++ b) with ((c :: a) ++ b) in H.
    rewrite (block_at_app _ b E) in H. discriminate.
  - destruct (block_at (c :: a ++ b)); [discriminate|]. eapply IH; eauto.
Qed.

Lemma collapse_hd_is k p x :
  is_space k = false ->
  hd_is k (sub_str spaces_pattern (L " ") p x) = hd_is k x.
Proof.
  intros Hk. rewrite spaces_sub_unfold. destruct x as [|c t]; [reflexivity|].
  destruct (is_space c) eqn:E; [|reflexivity]. cbn [hd_is].
  destruct (Ascii.eqb " " k) eqn:E1.
  { apply Ascii.eqb_eq in E1. subst k. discriminate. }
  destruct (Ascii.eqb c k) eqn:E2; [|reflexivity].
  apply Ascii.eqb_eq in E2. subst k. congruence.
Qed.

Lemma collapse_no_dslash :
  forall n x p,
    length x <= n -> has_dslash x = false ->
    has_dslash (sub_str spaces_pattern (L " ") p x) = false.
Proof.
  induction n as [|n IH]; intros x p Hn Hd; rewrite spaces_sub_unfold.
  - empty_text x Hn.
  - destruct x as [|c t]; [reflexivity|].
    destruct (is_space c) eqn:E.
    + pose proof (after_spaces_suffix c t) as Hs.
      rewrite has_dslash_cons. change (Ascii.eqb " " "/") with false.
      cbn [andb orb]. apply IH.
      * apply suffix_length in Hs. cbn [length] in Hn. lia.
      * eapply has_dslash_suffix; [|exact Hd].
        destruct Hs as [w Hw]. exists (c :: w). cbn [app]. now f_equal.
    + rewrite has_dslash_cons in *. apply orb_false_iff in Hd.
      destruct Hd as [H1 H2].
      rewrite collapse_hd_is by reflexivity. rewrite H1. cbn [orb].
      apply IH; [cbn [length] in Hn; lia | exact H2].
Qed.

Lemma close_after_none_suffix s t :
  suffix_of s t -> close_after t = None -> close_after s = None.
Proof.
  intros [w ->]. induction w as [|c w IH]; intros H; [exact H|].
  apply IH. cbn [app] in H. now apply close_after_cons_none in H.
Qed.

Lemma collapse_close_none :
  forall n u p,
    length u <= n -> close_after u = None ->
    close_after (sub_str spaces_pattern (L " ") p u) = None.
Proof.
  induction n as [|n IH]; intros u p Hn Hc; rewrite spaces_sub_unfold.
  - empty_text u Hn.
  - destruct u as [|c t]; [reflexivity|].
    destruct (is_space c) eqn:E.
    + pose proof (after_spaces_suffix c t) as Hs.
      cbn [close_after]. change (Ascii.eqb " " "*") with false. cbn [andb].
      apply IH.
      * apply suffix_length in Hs. cbn [length] in Hn. lia.
      * eapply close_after_none_suffix; [|exact Hc].
        destruct Hs as [w Hw]. exists (c :: w). cbn [app]. now f_equal.
    + apply close_after_cons_none in Hc. destruct Hc as [H1 H2].
      cbn [close_after]. rewrite collapse_hd_is by reflexivity. rewrite H1.
      apply IH; [cbn [length] in Hn; lia | exact H2].
Qed.

Lemma collapse_no_block :
  forall n x p,
    length x <= n -> has_block x = false ->
    has_block (sub_str spaces_pattern (L " ") p x) = false.
Proof.
  induction n as [|n IH]; intros x p Hn Hb; rewrite spaces_sub_unfold.
  - empty_text x Hn.
  - destruct x as [|c t]; [reflexivity|].
    destruct (is_space c) eqn:E.
    + pose proof (after_spaces_suffix c t) as Hs.
      cbn [has_block]. rewrite block_at_no_slash by reflexivity.
      apply IH.
      * apply suffix_length in Hs. cbn [length] in Hn. lia.
      * eapply has_block_suffix; [|exact Hb].
        destruct Hs as [w Hw]. exists (c :: w). cbn [app]. now f_equal.
    + cbn [has_block] in Hb.
      destruct (block_at (c :: t)) eqn:Eb; [discriminate|].
      cbn [has_block]. rewrite IH by (cbn [length] in Hn; auto; lia).
      destruct (block_at (c :: sub_str spaces_pattern (L " ") (Some c) t))
        as [r|] eqn:Eb2; [|reflexivity].
      exfalso. unfold block_at in Eb2.
      destruct (sub_str spaces_pattern (L " ") (Some c) t) as [|d Y] eqn:EY;
        [discriminate|].
      destruct (Ascii.eqb c "/" && Ascii.eqb d "*") eqn:Ecd; [|discriminate].
      apply andb_true_iff in Ecd. destruct Ecd as [Ec Ed].
      apply Ascii.eqb_eq in Ed. subst d.
      assert (Hh : hd_is "*" t = true).
      { rewrite <- (@collapse_hd_is "*"%char (Some c) t) by reflexivity.
        rewrite EY. reflexivity. }
      destruct (hd_is_true _ _ Hh) as [t' ->].
      rewrite spaces_sub_unfold in EY. change (is_space "*") with false in EY.
      injection EY as <-.
      unfold block_at in Eb. rewrite Ec in Eb. cbn [Ascii.eqb andb] in Eb.
      change (Ascii.eqb "*" "*") with true in Eb. cbn [andb] in Eb.
      rewrite (@collapse_close_none n) in Eb2; [discriminate | | exact Eb].
      cbn [length] in Hn. lia.
Qed.

(** ** Whitespace normalization on normalized text *)

Lemma single_spaces_trim_rest :
  forall s, single_spaces s = true -> trim_rest s = s.
Proof.
  induction s as [|c t IH]; intros H; [reflexivity|].
  cbn [single_spaces] in H. apply andb_true_iff in H. destruct H as [H1 H2].
  cbn [trim_rest]. rewrite (IH H2).
  destruct (is_space c); [|reflexivity].
  destruct t as [|d t]; [now rewrite andb_false_r in H1|].
  rewrite andb_true_r in H1. apply andb_true_iff in H1. destruct H1 as [_ H1].
  cbn [hd_space] in H1. apply negb_true_iff in H1.
  rewrite after_spaces_cons, H1. reflexivity.
Qed.

Lemma single_spaces_collapse :
  forall s p, single_spaces s = true -> sub_str spaces_pattern (L " ") p s = s.
Proof.
  induction s as [|c t IH]; intros p H; rewrite spaces_sub_unfold; [reflexivity|].
  cbn [single_spaces] in H. apply andb_true_iff in H. destruct H as [H1 H2].
  destruct (is_space c).
  - destruct t as [|d t]; [now rewrite andb_false_r in H1|].
    rewrite andb_true_r in H1. apply andb_true_iff in H1. destruct H1 as [Hc H1].
    cbn [hd_space] in H1. apply negb_true_iff in H1.
    apply Ascii.eqb_eq in Hc. subst c.
    rewrite after_spaces_cons, H1. f_equal. now apply IH.
  - f_equal. now apply IH.
Qed.

Lemma remove_whitespace_normalized W :
  normalized W = true -> remove_whitespace W = W.
Proof.
  unfold normalized. intros H. apply andb_true_iff in H. destruct H as [H1 H2].
  apply negb_true_iff in H1.
  unfold remove_whitespace. rewrite !re_sub_sub_str, trim_sub_start.
  destruct W as [|c t].
  - apply sub_str_nil, spaces_never_empty.
  - cbn [hd_space] in H1. rewrite H1.
    assert (Ht : trim_rest t = t).
    { apply single_spaces_trim_rest. cbn [single_spaces] in H2.
      now apply andb_true_iff in H2. }
    rewrite Ht. now apply single_spaces_collapse.
Qed.

(** The output of [remove_whitespace] is normalized, and has no comment
    when its input has none. *)
Lemma remove_whitespace_output R :
  normalized (remove_whitespace R) = true
  /\ (has_dslash R = false -> has_dslash (remove_whitespace R) = false)
  /\ (has_block R = false -> has_block (remove_whitespace R) = false).
Proof.
  unfold remove_whitespace. rewrite !re_sub_sub_str.
  destruct (trim_sub_shape R) as (v & Hv & Hh & ->).
  destruct (trim_rest_prefix v) as [post Hpost].
  repeat split.
  - unfold normalized. apply andb_true_iff. split.
    + apply negb_true_iff, collapse_hd_space, trim_rest_hd, Hh.
    + eapply collapse_single; [apply le_n | apply trim_rest_no_trail].
  - intros Hd. eapply collapse_no_dslash; [apply le_n|].
    apply has_dslash_prefix with (b := post). rewrite <- Hpost.
    eapply has_dslash_suffix; eauto.
  - intros Hb. eapply collapse_no_block; [apply le_n|].
    apply has_block_prefix with (b := post). rewrite <- Hpost.
    eapply has_block_suffix; eauto.
Qed.

(** ** The key of a declaration is the pair of its type and name *)

Lemma run_states_consumed cs caps :
  forall t p x,
    In x (run_states cs p t caps) ->
    ms_caps x = caps
    /\ exists w, t = w ++ ms_rest x /\ Forall (fun c => in_cset cs c = true) w.
Proof.
  induction t as [|c t IH]; intros p x H; cbn [run_states] in H.
  - destruct H as [<- | []]. split; [reflexivity|]. now exists [].
  - destruct (in_cset cs c) eqn:E.
    + apply in_app_or in H. destruct H as [H | [<- | []]].
      * destruct (IH _ _ H) as [Hc [w [Hw Fw]]]. split; [exact Hc|].
        exists (c :: w). split; [cbn [app]; now f_equal | now constructor].
      * split; [reflexivity|]. now exists [].
    + destruct H as [<- | []]. split; [reflexivity|]. now exists [].
Qed.

Lemma plus_chr_consumed cs p rest caps x :
  In x (rmatch (Plus (Chr cs)) (MState p rest caps)) ->
  ms_caps x = caps
  /\ exists w, rest = w ++ ms_rest x /\ w <> []
               /\ Forall (fun c => in_cset cs c = true) w.
Proof.
  rewrite rmatch_plus_chr. destruct rest as [|c t]; [intros []|].
  destruct (in_cset cs c) eqn:E; [|intros []]. intros H.
  destruct (run_states_consumed _ _ _ _ _ H) as [Hc [w [Hw Fw]]].
  split; [exact Hc|]. exists (c :: w). repeat split.
  - cbn [app]. now f_equal.
  - discriminate.
  - now constructor.
Qed.

(** The type name captured by the declaration pattern is made of word
    characters. *)
Lemma var_decl_type_word s :
  Forall (fun m => Forall (fun c => is_word c = true) (group m 1))
         (finditer var_decl_pattern s).
Proof.
  unfold finditer, group.
  apply scan_caps
    with (P := fun caps => Forall (fun c => is_word c = true) (lookup_cap 1 caps)).
  intros adv prev rest st' H.
  unfold match_here in H. apply find_some in H. destruct H as [H _].
  unfold var_decl_pattern in H. cbn [seqs] in H.
  remember (Seq (Plus ws) _) as tail_pattern eqn:Et in H.
  rewrite rmatch_seq in H.
  apply in_flat_map in H. destruct H as [st0 [H0 H]].
  rewrite rmatch_wordb in H0.
  destruct (at_boundary _); [|destruct H0]. destruct H0 as [<- | []].
  rewrite rmatch_seq in H.
  apply in_flat_map in H. destruct H as [mid [Hmid H]].
  rewrite rmatch_grp in Hmid.
  apply in_map_iff in Hmid. destruct Hmid as [x [<- Hx]].
  apply plus_chr_consumed in Hx. destruct Hx as [Hc [w [Hw [_ Fw]]]].
  apply rmatch_caps in H. destruct H as [extra [Hcaps Fe]].
  rewrite Hcaps. cbn [ms_caps ms_rest].
  rewrite lookup_cap_extra.
  - cbn [lookup_cap Nat.eqb]. rewrite Hw at 1 2. rewrite length_app.
    replace (length w + length (ms_rest x) - length (ms_rest x)) with (length w)
      by lia.
    rewrite firstn_app, firstn_all, Nat.sub_diag. cbn [firstn].
    rewrite app_nil_r. exact Fw.
  - eapply Forall_impl; [|exact Fe]. intros [j v] Hj. cbn [fst].
    replace (groups_of tail_pattern) with [2; 3] in Hj by (now rewrite Et).
    simpl in Hj. intuition lia.
Qed.

Lemma word_space_split :
  forall a a' b b' : str,
    Forall (fun c => is_word c = true) a ->
    Forall (fun c => is_word c = true) a' ->
    a ++ L " " ++ b = a' ++ L " " ++ b' -> a = a' /\ b = b'.
Proof.
  change (L " ") with [" "%char].
  induction a as [|x a IH]; intros a' b b' Fa Fa' H.
  - destruct a' as [|y a'].
    + cbn [app] in H. injection H as ->. now split.
    + cbn [app] in H. injection H as <- _.
      inversion Fa' as [|? ? Hy _]; subst. discriminate.
  - inversion Fa as [|? ? Hx Fa2]; subst.
    destruct a' as [|y a'].
    + cbn [app] in H. injection H as -> _. discriminate.
    + inversion Fa' as [|? ? Hy Fa2']; subst.
      cbn [app] in H. injection H as -> H.
      destruct (IH _ _ _ Fa2 Fa2' H) as [-> ->]. now split.
Qed.

(** Two matched declarations have the same key exactly when they have
    the same type name and the same variable name. *)
Lemma same_key_pair s s' m m' :
  In m (finditer var_decl_pattern s) ->
  In m' (finditer var_decl_pattern s') ->
  (same_key m m' = true <-> group m 1 = group m' 1 /\ group m 2 = group m' 2).
Proof.
  intros Hm Hm'.
  pose proof (var_decl_type_word s) as F. rewrite Forall_forall in F.
  pose proof (var_decl_type_word s') as F'. rewrite Forall_forall in F'.
  unfold same_key. rewrite str_eqb_eq. unfold decl_key. split.
  - apply word_space_split; auto.
  - now intros [-> ->].
Qed.

(** ** Dedup: what [first_text] picks *)

Lemma first_text_first pre m post :
  (forall x, In x pre -> same_key m x = false) ->
  first_text (pre ++ m :: post) m = m_text m.
Proof.
  intros H. unfold first_text. induction pre as [|x pre IH]; cbn [app find].
  - unfold same_key. now rewrite str_eqb_refl.
  - rewrite (H x) by now left. apply IH. intros y Hy. apply H. now right.
Qed.

Lemma first_text_repeat pre m0 rest m :
  (forall x, In x pre -> same_key m x = false) ->
  same_key m m0 = true ->
  first_text (pre ++ m0 :: rest) m = m_text m0.
Proof.
  intros H H0. unfold first_text. induction pre as [|x pre IH]; cbn [app find].
  - now rewrite H0.
  - rewrite (H x) by now left. apply IH. intros y Hy. apply H. now right.
Qed.

(** ** Examples *)

Example remove_comments_line :
  remove_comments (L "a // comment" ++ [nl] ++ L "b") = L "a " ++ [nl] ++ L "b".
Proof. vm_compute. reflexivity. Qed.

Example remove_comments_block :
  remove_comments (L "x /* c */ y") = L "x  y".
Proof. vm_compute. reflexivity. Qed.

Example combine_same_type :
  combine_variable_declarations (L "int a; int b;") = L " int a, b;" ++ [nl].
Proof. vm_compute. reflexivity. Qed.

Example fold_known_uniform :
  replace_uniform_variables (L "uniform float u_time;") = L "float u_time = 0.0;".
Proof. vm_compute. reflexivity. Qed.

Example dedup_copies_first_text :
  remove_redundant_variables (L "int a [ 3 ] ; int a; float b;")
  = L "int a [ 3 ] ; int a [ 3 ] ; float b;".
Proof. vm_compute. reflexivity. Qed.

Example unroll_exact_header :
  unroll_loops (L "for (int i = 0; i < 10; i++) {x;} y") = L "x;}y".
Proof. vm_compute. reflexivity. Qed.

Example unroll_literal_in_body :
  unroll_loop (L "for (int i = 0; i < 10; i++){}") = unrolled_block ++ L "{}".
Proof. vm_compute. reflexivity. Qed.

(** * The claims *)

(** C1, counterexample: a matched uniform declaration whose name is not
    in the table is not deleted; the output still holds it. *)
Lemma unknown_uniform_not_deleted :
  map own (finditer uniform_pattern (L "uniform float u_unknown;"))
  = [(0, 24, L "uniform float u_unknown;")]
  /\ get_uniform_value (L "u_unknown") = None
  /\ replace_uniform_variables (L "uniform float u_unknown;")
     = L "uniform float u_unknown;"
  /\ replace_uniform_variables (L "uniform float u_unknown;") <> [].
Proof. vm_compute. repeat split. discriminate. Qed.

(** C1, amended: for every input text, the matches of the uniform
    pattern tile the input with the text between them, and the output of
    [replace_uniform_variables] is the input in which each matched
    declaration is replaced by [folded_decl]: by [<type> <name> =
    <value>;] when its name is in the table, and by its own text,
    unchanged, when it is not. *)
Theorem replace_uniform_variables_each (s : str) :
  splice s 0 (map own (finditer uniform_pattern s)) = s
  /\ replace_uniform_variables s
     = splice s 0 (map (with_text folded_decl) (finditer uniform_pattern s)).
Proof.
  split.
  - apply finditer_splice_own.
  - rewrite replace_uniform_variables_known.
    apply splice_known_all, finditer_spans.
Qed.

(** C2: the scanner keeps the closing brace.  On [{a{b}c}d] from offset
    1 the depth reaches 0 at the brace before [d]; the contract's body
    stops before that brace, [find_function_body] and [find_loop_body]
    return it too. *)
Theorem find_function_body_includes_closing_brace :
  close_index 1 1 (slice_from (L "{a{b}c}d") 1) = Some 6
  /\ body_upto_close (L "{a{b}c}d") 1 = L "a{b}c"
  /\ find_function_body (L "{a{b}c}d") 1 = L "a{b}c}"
  /\ find_loop_body (L "{a{b}c}d") 1 = L "a{b}c}".
Proof. vm_compute. repeat split. Qed.

(** C3: on [void f() {a;} b] the one callable matched has the body
    [a;}] as extracted, under 50 characters; the output keeps the
    closing brace and loses the space after it. *)
Theorem inline_functions_keeps_brace_drops_char :
  map own (finditer function_pattern (L "void f() {a;} b"))
  = [(0, 10, L "void f() {")]
  /\ find_function_body (L "void f() {a;} b") 10 = L "a;}"
  /\ inline_functions (L "void f() {a;} b") = L "a;}b".
Proof. vm_compute. repeat split. Qed.




(** C5, counterexample: the text between two matches is not dropped; it
    stands in the output before the merged declarations. *)
Lemma combine_keeps_text_between_matches :
  combine_variable_declarations (L "int a; x = 1; float b;")
  = L " x = 1; int a;" ++ [nl] ++ L "float b;" ++ [nl]
  /\ block_then_tail (L "int a; x = 1; float b;")
     = L "int a;" ++ [nl] ++ L "float b;" ++ [nl]
  /\ combine_variable_declarations (L "int a; x = 1; float b;")
     <> block_then_tail (L "int a; x = 1; float b;").
Proof. vm_compute. repeat split. discriminate. Qed.

(** C5, amended: for every input, the output of
    [combine_variable_declarations] is the text before the first match
    and between consecutive matches, kept in order, then the merged
    declarations, one per maximal run of consecutive matches with the
    same type name, each flushed as [type name1, name2, ...;] with the
    array sizes appended, joined by newlines, then a newline, then the
    text after the last match. *)
Theorem combine_variable_declarations_output (s : str) :
  spans s 0 (finditer var_decl_pattern s)
  /\ combine_variable_declarations s
     = gaps s 0 (finditer var_decl_pattern s)
       ++ merged_block (finditer var_decl_pattern s) ++ [nl]
       ++ slice_from s (last_end 0 (finditer var_decl_pattern s)).
Proof.
  split.
  - apply finditer_spans.
  - apply combine_variable_declarations_groups.
Qed.

(** C6: on the empty input the nine stages return a single newline and
    the percentage divides by the initial size 0: the run ends in
    [ZeroDivisionError]. *)
Theorem optimize_shader_empty_input :
  run_stages [] = [nl] /\ optimize_shader [] = ZeroDivisionError.
Proof. vm_compute. split; reflexivity. Qed.

(** C7: the Lexical-Stripper is idempotent. *)
Theorem strip_idempotent (T : str) : strip (strip T) = strip T.
Proof.
  unfold strip.
  destruct (remove_comments_clean T) as [H1 H2].
  destruct (remove_whitespace_output (remove_comments T)) as (N & D & B).
  rewrite (@remove_comments_clean_id _ (D H1) (B H2)).
  apply remove_whitespace_normalized, N.
Qed.

(** C8: for every input, the matches of the declaration pattern tile the
    input with the text between them, and the output of
    [remove_redundant_variables] is the input in which each matched
    declaration is replaced by the text of the first match with its key
    (its own text when it is the first), the text between matches staying
    in place; on [int a; int a; float b;] the three declarations are
    matched and the output is the input. *)
Theorem remove_redundant_variables_first_text (s : str) :
  splice s 0 (map own (finditer var_decl_pattern s)) = s
  /\ remove_redundant_variables s
     = splice s 0 (map (with_text (first_text (finditer var_decl_pattern s)))
                       (finditer var_decl_pattern s))
  /\ map own (finditer var_decl_pattern (L "int a; int a; float b;"))
     = [(0, 6, L "int a;"); (7, 13, L "int a;"); (14, 22, L "float b;")]
  /\ map decl_key (finditer var_decl_pattern (L "int a; int a; float b;"))
     = [L "int a"; L "int a"; L "float b"]
  /\ remove_redundant_variables (L "int a; int a; float b;")
     = L "int a; int a; float b;".
Proof.
  split; [|split].
  - apply finditer_splice_own.
  - unfold remove_redundant_variables.
    pose proof (@redundant_loop_splice s (finditer var_decl_pattern s) [] [] [] 0)
      as H.
    destruct (redundant_loop s (finditer var_decl_pattern s) [] [] 0) as [c st].
    apply H. intros k. reflexivity.
  - vm_compute. repeat split.
Qed.




(** C10: for every input text, the matched uniform declarations whose
    name is in the table are spans of the input in text order, and the
    output of [replace_uniform_variables] is the input with those spans,
    and only those, replaced by their folded text: everything outside
    them, declarations with unknown names included, stays in place. *)
Theorem replace_uniform_variables_frame (s : str) :
  spans s 0 (filter is_known (finditer uniform_pattern s))
  /\ splice s 0 (map own (filter is_known (finditer uniform_pattern s))) = s
  /\ replace_uniform_variables s
     = splice s 0 (map (with_text folded_decl)
                       (filter is_known (finditer uniform_pattern s))).
Proof.
  assert (H : spans s 0 (filter is_known (finditer uniform_pattern s)))
    by apply spans_filter, finditer_spans.
  split; [exact H|]. split.
  - now rewrite splice_own.
  - apply replace_uniform_variables_known.
Qed.

(** * Further properties of the stages *)

(** ** Lengths *)

Lemma scan_lengths (r : regex) (Q : nat -> Prop) :
  (forall adv prev rest st',
      match_here r adv prev rest = Some st' ->
      Q (length rest - length (ms_rest st'))) ->
  forall fuel adv prev pos rest,
    Forall (fun m => Q (m_end m - m_start m)) (scan r fuel adv prev pos rest).
Proof.
  intros HQ. induction fuel as [|f IH]; intros adv prev pos rest; cbn [scan].
  - constructor.
  - destruct (match_here r adv prev rest) as [st'|] eqn:E.
    + constructor; [|apply IH]. cbn [m_end m_start].
      replace (pos + (length rest - length (ms_rest st')) - pos)
        with (length rest - length (ms_rest st')) by lia.
      eapply HQ; eauto.
    + destruct rest; [constructor | apply IH].
Qed.

Lemma finditer_never_empty r s :
  never_empty r -> Forall (fun m => 1 <= m_end m - m_start m) (finditer r s).
Proof.
  intros Hne. unfold finditer. apply scan_lengths.
  intros adv prev rest st' H. unfold match_here in H.
  apply find_some in H. destruct H as [H _]. apply Hne in H. lia.
Qed.

Lemma splice_const_length s repl :
  forall ms lo,
    spans s lo ms -> lo <= length s ->
    Forall (fun m => length repl <= m_end m - m_start m) ms ->
    length (splice s lo (map (with_text (fun _ => repl)) ms)) <= length s - lo.
Proof.
  intros ms lo H. induction H as [lo|lo m ms H1 H2 H3 H4 H5 IH]; intros Hlo F;
    cbn [map splice with_text].
  - unfold slice_from. rewrite length_skipn. lia.
  - inversion F as [|? ? Fm Frest]; subst.
    rewrite !length_app, slice_length_le by lia.
    specialize (IH H3 Frest). lia.
Qed.

Lemma re_sub_length r repl s :
  Forall (fun m => length repl <= m_end m - m_start m) (finditer r s) ->
  length (re_sub r repl s) <= length s.
Proof.
  intros F. rewrite re_sub_splice.
  pose proof (@splice_const_length s repl (finditer r s) 0
                (finditer_spans r s) ltac:(lia) F). lia.
Qed.

Lemma re_sub_delete_length r s : length (re_sub r [] s) <= length s.
Proof.
  apply re_sub_length. apply Forall_forall. intros m _. cbn [length]. lia.
Qed.

Lemma empty_line_never_empty : never_empty empty_line_pattern.
Proof. apply never_empty_seq_chr. Qed.

(** ** Stages that change nothing *)

Lemma texture_loop_copies s :
  forall ms lo,
    spans s lo ms ->
    fst (texture_loop s ms (slice s 0 lo) lo)
    = slice s 0 (snd (texture_loop s ms (slice s 0 lo) lo)).
Proof.
  intros ms lo H. induction H as [lo|lo m ms H1 H2 H3 H4 H5 IH];
    cbn [texture_loop].
  - reflexivity.
  - unfold optimize_texture_lookup. rewrite str_eqb_refl. cbn [negb].
    rewrite slice_app by lia. exact IH.
Qed.

Lemma inline_loop_long s :
  forall ms lo start,
    spans s lo ms -> start <= lo + 1 ->
    all_long find_function_body s ms ->
    fst (inline_loop s ms (slice s 0 start) start)
    = slice s 0 (snd (inline_loop s ms (slice s 0 start) start)).
Proof.
  induction ms as [|m ms IH]; intros lo start Hsp Hst Hall; cbn [inline_loop].
  - reflexivity.
  - inversion Hsp as [|? ? ? H1 H2 H3 H4 H5]; subst.
    inversion Hall as [|? ? Hm Hrest]; subst.
    replace (length (find_function_body s (m_end m)) <? 50) with false
      by (symmetry; apply Nat.ltb_ge; exact Hm).
    rewrite slice_app by lia.
    apply IH with (lo := m_end m); [exact H5 | lia | exact Hrest].
Qed.

Lemma NoDup_map_eq (A B : Type) (f : A -> B) (l : list A) a b :
  NoDup (map f l) -> In a l -> In b l -> f a = f b -> a = b.
Proof.
  induction l as [|x l IH]; intros Hnd Ha Hb Hf; [destruct Ha|].
  cbn [map] in Hnd. inversion Hnd as [|? ? Hx Hl]; subst.
  destruct Ha as [<- | Ha], Hb as [<- | Hb].
  - reflexivity.
  - exfalso. apply Hx. rewrite Hf. now apply in_map.
  - exfalso. apply Hx. rewrite <- Hf. now apply in_map.
  - now apply IH.
Qed.

Lemma first_text_distinct ms m :
  NoDup (map decl_key ms) -> In m ms -> first_text ms m = m_text m.
Proof.
  intros Hnd Hm. unfold first_text.
  destruct (find (same_key m) ms) as [m'|] eqn:E; [|reflexivity].
  apply find_some in E. destruct E as [Hin Hk].
  unfold same_key in Hk. apply str_eqb_eq in Hk.
  now rewrite (NoDup_map_eq decl_key ms m m' Hnd Hm Hin Hk).
Qed.

Lemma map_ext_In_with_text f g (ms : list rmatch_obj) :
  (forall m, In m ms -> f m = g m) -> map (with_text f) ms = map (with_text g) ms.
Proof.
  intros H. apply map_ext_in. intros m Hm. unfold with_text. now rewrite H.
Qed.

(** ** The stages, one by one *)

(** X1: comment removal never makes the text longer. *)
Theorem remove_comments_never_longer (s : str) :
  length (remove_comments s) <= length s.
Proof.
  unfold remove_comments.
  pose proof (re_sub_delete_length line_comment_pattern s).
  pose proof (re_sub_delete_length block_comment_pattern
                (re_sub line_comment_pattern [] s)).
  lia.
Qed.

(** X2: the output of comment removal contains no [//] and no block
    comment (no [/*] followed further on by [*/]). *)
Theorem remove_comments_leaves_no_comment (s : str) :
  has_dslash (remove_comments s) = false /\ has_block (remove_comments s) = false.
Proof. apply remove_comments_clean. Qed.

(** X3: comment removal returns a text unchanged exactly when the text
    contains no [//] and no block comment; in particular it is
    idempotent. *)
Theorem remove_comments_fixed_points (s : str) :
  (remove_comments s = s <-> has_dslash s = false /\ has_block s = false)
  /\ remove_comments (remove_comments s) = remove_comments s.
Proof.
  split; [split|].
  - intros H. rewrite <- H. apply remove_comments_clean.
  - intros [H1 H2]. now apply remove_comments_clean_id.
  - destruct (remove_comments_clean s) as [H1 H2].
    now apply remove_comments_clean_id.
Qed.

(** X4: the output of whitespace normalization does not start with
    whitespace, and each whitespace character in it is a single space
    followed by a character that is not whitespace: no tab or newline is
    left, no run of spaces, no whitespace at the end. *)
Theorem remove_whitespace_normalizes (s : str) :
  normalized (remove_whitespace s) = true.
Proof. apply remove_whitespace_output. Qed.

(** X5: whitespace normalization returns a text unchanged exactly when
    the text is normalized; in particular it is idempotent. *)
Theorem remove_whitespace_fixed_points (s : str) :
  (remove_whitespace s = s <-> normalized s = true)
  /\ remove_whitespace (remove_whitespace s) = remove_whitespace s.
Proof.
  split; [split|].
  - intros H. rewrite <- H. apply remove_whitespace_output.
  - apply remove_whitespace_normalized.
  - apply remove_whitespace_normalized, remove_whitespace_output.
Qed.

(** X6: whitespace normalization never makes the text longer. *)
Theorem remove_whitespace_never_longer (s : str) :
  length (remove_whitespace s) <= length s.
Proof.
  unfold remove_whitespace.
  pose proof (re_sub_delete_length trim_pattern s).
  pose proof (@re_sub_length spaces_pattern (L " ") (re_sub trim_pattern [] s)
                (finditer_never_empty _ spaces_never_empty)).
  lia.
Qed.

(** X7: whitespace normalization creates no comment: on a text without
    [//] and without block comment its output has neither. *)
Theorem remove_whitespace_creates_no_comment (s : str) :
  has_dslash s = false -> has_block s = false ->
  has_dslash (remove_whitespace s) = false
  /\ has_block (remove_whitespace s) = false.
Proof.
  intros H1 H2. destruct (remove_whitespace_output s) as (_ & D & B). auto.
Qed.

Lemma remove_whitespace_creates_no_comment_witness :
  has_dslash (L "a /  / * b") = false /\ has_block (L "a /  / * b") = false
  /\ has_dslash (remove_whitespace (L "a /  / * b")) = false
  /\ has_block (remove_whitespace (L "a /  / * b")) = false.
Proof.
  assert (H1 : has_dslash (L "a /  / * b") = false) by (vm_compute; reflexivity).
  assert (H2 : has_block (L "a /  / * b") = false) by (vm_compute; reflexivity).
  split; [exact H1|]. split; [exact H2|].
  exact (@remove_whitespace_creates_no_comment (L "a /  / * b") H1 H2).
Defined.

(** X8: with [optimize_texture_lookup] returning its argument, the
    texture stage returns every text unchanged. *)
Theorem optimize_texture_lookups_identity (s : str) :
  optimize_texture_lookups s = s.
Proof.
  unfold optimize_texture_lookups.
  pose proof (@texture_loop_copies s (finditer texture_pattern s) 0
                (finditer_spans _ _)) as H.
  change (slice s 0 0) with (@nil ascii) in H.
  destruct (texture_loop s (finditer texture_pattern s) [] 0) as [c st].
  cbn [fst snd] in H. rewrite H. apply slice_0_whole.
Qed.

(** X9: blank-line removal never makes the text longer. *)
Theorem remove_empty_lines_never_longer (s : str) :
  length (remove_empty_lines s) <= length s.
Proof.
  unfold remove_empty_lines. apply re_sub_length.
  apply (finditer_never_empty _ empty_line_never_empty).
Qed.

(** X10: what the brace scanner returns, for every text and offset: when
    the depth reaches 0, the text from the offset up to the closing
    brace at which it does, that brace included; when it never does
    (also when the offset is at or past the end), the text from the
    offset to the end. *)
Theorem find_function_body_result (s : str) (off : nat) :
  find_function_body s off
  = match close_index 1 off (slice_from s off) with
    | Some _ => body_upto_close s off ++ L "}"
    | None => slice_from s off
    end.
Proof.
  destruct (close_index 1 off (slice_from s off)) as [j|] eqn:E.
  - now apply find_function_body_keeps_brace with (j := j).
  - rewrite find_function_body_close. now rewrite E.
Qed.

(** X11: when every matched callable has a body of 50 characters or
    more, [inline_functions] returns the text unchanged. *)
Theorem inline_functions_long_bodies (s : str) :
  all_long find_function_body s (finditer function_pattern s) ->
  inline_functions s = s.
Proof.
  intros Hall. unfold inline_functions.
  assert (H0 : 0 <= 0 + 1) by lia.
  pose proof (@inline_loop_long s (finditer function_pattern s) 0 0
                (finditer_spans _ _) H0 Hall) as H.
  change (slice s 0 0) with (@nil ascii) in H.
  destruct (inline_loop s (finditer function_pattern s) [] 0) as [c st].
  cbn [fst snd] in H. rewrite H. apply slice_0_whole.
Qed.

Lemma inline_functions_long_bodies_witness :
  all_long find_function_body
    (L "void f() {aaaaaaaaaaaaaaaaaaaaaaaaaaaaaaaaaaaaaaaaaaaaaaaaaaaaaaa;} b")
    (finditer function_pattern
       (L "void f() {aaaaaaaaaaaaaaaaaaaaaaaaaaaaaaaaaaaaaaaaaaaaaaaaaaaaaaa;} b"))
  /\ inline_functions
       (L "void f() {aaaaaaaaaaaaaaaaaaaaaaaaaaaaaaaaaaaaaaaaaaaaaaaaaaaaaaa;} b")
     = L "void f() {aaaaaaaaaaaaaaaaaaaaaaaaaaaaaaaaaaaaaaaaaaaaaaaaaaaaaaa;} b".
Proof.
  assert (H : all_long find_function_body
    (L "void f() {aaaaaaaaaaaaaaaaaaaaaaaaaaaaaaaaaaaaaaaaaaaaaaaaaaaaaaa;} b")
    (finditer function_pattern
       (L "void f() {aaaaaaaaaaaaaaaaaaaaaaaaaaaaaaaaaaaaaaaaaaaaaaaaaaaaaaa;} b"))).
  { apply Forall_forall. intros m Hm. vm_compute in Hm.
    destruct Hm as [<- | []]. vm_compute. lia. }
  split; [exact H|].
  exact (@inline_functions_long_bodies _ H).
Defined.

Lemma remove_redundant_variables_splice s :
  remove_redundant_variables s
  = splice s 0 (map (with_text (first_text (finditer var_decl_pattern s)))
                    (finditer var_decl_pattern s)).
Proof.
  unfold remove_redundant_variables.
  pose proof (@redundant_loop_splice s (finditer var_decl_pattern s) [] [] [] 0)
    as H.
  destruct (redundant_loop s (finditer var_decl_pattern s) [] [] 0) as [c st].
  apply H. intros k. reflexivity.
Qed.

(** X12: when no two matched declarations have the same key,
    [remove_redundant_variables] returns the text unchanged. *)
Theorem remove_redundant_variables_distinct_keys (s : str) :
  NoDup (map decl_key (finditer var_decl_pattern s)) ->
  remove_redundant_variables s = s.
Proof.
  intros Hnd.
  rewrite remove_redundant_variables_splice.
  transitivity (splice s 0 (map own (finditer var_decl_pattern s)));
    [|apply finditer_splice_own].
  f_equal. apply map_ext_in. intros m Hm. unfold with_text, own.
  now rewrite first_text_distinct.
Qed.

Lemma remove_redundant_variables_distinct_keys_witness :
  NoDup (map decl_key (finditer var_decl_pattern (L "int a; float a;")))
  /\ remove_redundant_variables (L "int a; float a;") = L "int a; float a;".
Proof.
  assert (H : NoDup (map decl_key (finditer var_decl_pattern (L "int a; float a;")))).
  { vm_compute. constructor; [intros [H|[]]; discriminate|].
    constructor; [intros []|constructor]. }
  split; [exact H|].
  exact (@remove_redundant_variables_distinct_keys _ H).
Defined.

(** X13: when no matched uniform declaration has its name in the table,
    [replace_uniform_variables] returns the text unchanged. *)
Theorem replace_uniform_variables_unknown_names (s : str) :
  Forall (fun m => get_uniform_value (group m 2) = None)
         (finditer uniform_pattern s) ->
  replace_uniform_variables s = s.
Proof.
  intros F. rewrite replace_uniform_variables_known.
  replace (filter is_known (finditer uniform_pattern s)) with (@nil rmatch_obj).
  - reflexivity.
  - symmetry. induction F as [|m ms Hm _ IH]; [reflexivity|].
    cbn [filter]. unfold is_known at 1. now rewrite Hm.
Qed.

Lemma replace_uniform_variables_unknown_names_witness :
  Forall (fun m => get_uniform_value (group m 2) = None)
         (finditer uniform_pattern (L "uniform vec3 u_color; uniform float t;"))
  /\ replace_uniform_variables (L "uniform vec3 u_color; uniform float t;")
     = L "uniform vec3 u_color; uniform float t;".
Proof.
  assert (H : Forall (fun m => get_uniform_value (group m 2) = None)
                (finditer uniform_pattern
                   (L "uniform vec3 u_color; uniform float t;"))).
  { vm_compute. repeat constructor. }
  split; [exact H|].
  exact (@replace_uniform_variables_unknown_names _ H).
Defined.

(** X14: the output of [combine_variable_declarations] always contains a
    newline; it is never empty, not even on the empty text. *)
Theorem combine_variable_declarations_has_newline (s : str) :
  In nl (combine_variable_declarations s).
Proof.
  rewrite combine_variable_declarations_groups.
  apply in_or_app. right. apply in_or_app. right. now left.
Qed.

(** X15: the dictionary key [f"{var_type} {var_name}"] separates
    declarations exactly by type and name: two matched declarations have
    the same key if and only if they have the same type name and the
    same variable name. *)
Theorem declaration_key_is_type_and_name (s s' : str) (m m' : rmatch_obj) :
  In m (finditer var_decl_pattern s) ->
  In m' (finditer var_decl_pattern s') ->
  (decl_key m = decl_key m'
   <-> group m 1 = group m' 1 /\ group m 2 = group m' 2).
Proof.
  intros Hm Hm'. rewrite <- (same_key_pair s s' m m' Hm Hm').
  unfold same_key. symmetry. apply str_eqb_eq.
Qed.

Lemma declaration_key_is_type_and_name_witness :
  In (Match 0 6 (L "int a;") [(3, []); (2, L "a"); (1, L "int")])
     (finditer var_decl_pattern (L "int a; int a;"))
  /\ In (Match 7 13 (L "int a;") [(3, []); (2, L "a"); (1, L "int")])
        (finditer var_decl_pattern (L "int a; int a;"))
  /\ (decl_key (Match 0 6 (L "int a;") [(3, []); (2, L "a"); (1, L "int")])
      = decl_key (Match 7 13 (L "int a;") [(3, []); (2, L "a"); (1, L "int")])
      <-> group (Match 0 6 (L "int a;") [(3, []); (2, L "a"); (1, L "int")]) 1
          = group (Match 7 13 (L "int a;") [(3, []); (2, L "a"); (1, L "int")]) 1
          /\ group (Match 0 6 (L "int a;") [(3, []); (2, L "a"); (1, L "int")]) 2
             = group (Match 7 13 (L "int a;") [(3, []); (2, L "a"); (1, L "int")]) 2).
Proof.
  assert (H1 : In (Match 0 6 (L "int a;") [(3, []); (2, L "a"); (1, L "int")])
                  (finditer var_decl_pattern (L "int a; int a;")))
    by (vm_compute; left; reflexivity).
  assert (H2 : In (Match 7 13 (L "int a;") [(3, []); (2, L "a"); (1, L "int")])
                  (finditer var_decl_pattern (L "int a; int a;")))
    by (vm_compute; right; left; reflexivity).
  split; [exact H1|]. split; [exact H2|].
  exact (@declaration_key_is_type_and_name _ _ _ _ H1 H2).
Defined.

(** ** Texts the patterns cannot match *)

Lemma suffix_In (c : ascii) (a b : str) : suffix_of a b -> In c a -> In c b.
Proof. intros [w ->] H. apply in_or_app. now right. Qed.

(** A pattern that ends with a literal character only matches where
    that character lies ahead. *)
Lemma seqs_last_chr c :
  forall l st st',
    last l Eps = Chr (CLit c) ->
    In st' (rmatch (seqs l) st) -> In c (ms_rest st).
Proof.
  induction l as [|a l IH]; intros st st' Hl H.
  - discriminate.
  - destruct l as [|b l].
    + cbn [last seqs] in *. subst a. rewrite rmatch_chr in H.
      destruct (ms_rest st) as [|d t]; [destruct H|]. cbn [in_cset] in H.
      destruct (Ascii.eqb d c) eqn:E; [|destruct H].
      apply Ascii.eqb_eq in E. subst d. now left.
    + change (seqs (a :: b :: l)) with (Seq a (seqs (b :: l))) in H.
      rewrite rmatch_seq in H. apply in_flat_map in H.
      destruct H as [mid [Hmid H]].
      apply (@suffix_In c (ms_rest mid) (ms_rest st));
        [now apply rmatch_suffix in Hmid|].
      eapply IH; eauto.
Qed.

Lemma scan_no_match r :
  forall fuel adv prev pos rest,
    (forall adv' prev' rest',
        suffix_of rest' rest -> match_here r adv' prev' rest' = None) ->
    scan r fuel adv prev pos rest = [].
Proof.
  induction fuel as [|f IH]; intros adv prev pos rest H; cbn [scan].
  - reflexivity.
  - rewrite H by apply suffix_refl.
    destruct rest as [|c t]; [reflexivity|].
    apply IH. intros adv' prev' rest' Hs. apply H.
    eapply suffix_trans; [exact Hs | now exists [c]].
Qed.

Lemma finditer_needs_char r c s :
  (forall st st', In st' (rmatch r st) -> In c (ms_rest st)) ->
  ~ In c s -> finditer r s = [].
Proof.
  intros Hr Hc. unfold finditer. apply scan_no_match.
  intros adv prev rest Hs. unfold match_here.
  destruct (rmatch r (MState prev rest [])) as [|x l] eqn:E; [reflexivity|].
  exfalso. apply Hc. apply (@suffix_In c rest s Hs).
  apply (Hr (MState prev rest []) x). rewrite E. now left.
Qed.

Lemma var_decl_needs_semicolon s :
  ~ In ";"%char s -> finditer var_decl_pattern s = [].
Proof.
  apply finditer_needs_char. intros st st'. unfold var_decl_pattern.
  now apply seqs_last_chr.
Qed.

Lemma uniform_needs_semicolon s :
  ~ In ";"%char s -> finditer uniform_pattern s = [].
Proof.
  apply finditer_needs_char. intros st st'. unfold uniform_pattern.
  now apply seqs_last_chr.
Qed.

Lemma function_needs_brace s :
  ~ In "{"%char s -> finditer function_pattern s = [].
Proof.
  apply finditer_needs_char. intros st st'. unfold function_pattern.
  now apply seqs_last_chr.
Qed.

Lemma loop_needs_brace s :
  ~ In "{"%char s -> finditer loop_pattern s = [].
Proof.
  apply finditer_needs_char. intros st st'. unfold loop_pattern.
  now apply seqs_last_chr.
Qed.

(** X16: a text without [;] holds no declaration: the dedup stage and
    the uniform stage return it unchanged, and the merge stage only puts
    a newline before it. *)
Theorem no_semicolon_no_declaration (s : str) :
  ~ In ";"%char s ->
  remove_redundant_variables s = s
  /\ combine_variable_declarations s = nl :: s
  /\ replace_uniform_variables s = s.
Proof.
  intros H. repeat split.
  - unfold remove_redundant_variables.
    now rewrite (var_decl_needs_semicolon s H).
  - unfold combine_variable_declarations.
    now rewrite (var_decl_needs_semicolon s H).
  - unfold replace_uniform_variables.
    now rewrite (uniform_needs_semicolon s H).
Qed.

Lemma no_semicolon_no_declaration_witness :
  ~ In ";"%char (L "uniform float u_time")
  /\ remove_redundant_variables (L "uniform float u_time") = L "uniform float u_time"
  /\ combine_variable_declarations (L "uniform float u_time")
     = nl :: L "uniform float u_time"
  /\ replace_uniform_variables (L "uniform float u_time") = L "uniform float u_time".
Proof.
  assert (H : ~ In ";"%char (L "uniform float u_time")).
  { vm_compute. intros H.
    repeat (destruct H as [H|H]; [discriminate H|]). exact H. }
  split; [exact H|].
  exact (@no_semicolon_no_declaration _ H).
Defined.

(** X17: a text without an opening brace holds no callable and no loop:
    [inline_functions] and [unroll_loops] return it unchanged. *)
Theorem no_brace_no_rewrite (s : str) :
  ~ In "{"%char s -> inline_functions s = s /\ unroll_loops s = s.
Proof.
  intros H. split.
  - unfold inline_functions. now rewrite (function_needs_brace s H).
  - unfold unroll_loops. now rewrite (loop_needs_brace s H).
Qed.

Lemma no_brace_no_rewrite_witness :
  ~ In "{"%char (L "for (;;) x; int f(int a);")
  /\ inline_functions (L "for (;;) x; int f(int a);") = L "for (;;) x; int f(int a);"
  /\ unroll_loops (L "for (;;) x; int f(int a);") = L "for (;;) x; int f(int a);".
Proof.
  assert (H : ~ In "{"%char (L "for (;;) x; int f(int a);")).
  { vm_compute. intros H.
    repeat (destruct H as [H|H]; [discriminate H|]). exact H. }
  split; [exact H|].
  exact (@no_brace_no_rewrite _ H).
Defined.

(** ** Blank-line removal after the merge stage *)

Lemma no_nl_In s : no_nl s = true <-> ~ In nl s.
Proof.
  unfold no_nl. rewrite forallb_forall. split.
  - intros H Hin. specialize (H nl Hin). now rewrite Ascii.eqb_refl in H.
  - intros H c Hc. apply negb_true_iff. apply Ascii.eqb_neq. intros ->. auto.
Qed.

Lemma no_nl_app a b : no_nl (a ++ b) = no_nl a && no_nl b.
Proof. unfold no_nl. apply forallb_app. Qed.

Lemma no_nl_incl a b : incl a b -> no_nl b = true -> no_nl a = true.
Proof. rewrite !no_nl_In. intros Hi Hb Ha. apply Hb, Hi, Ha. Qed.

Lemma slice_incl s a b : incl (slice s a b) s.
Proof.
  unfold slice. intros c Hc.
  rewrite <- (firstn_skipn a s). apply in_or_app. right.
  rewrite <- (firstn_skipn (b - a) (skipn a s)). apply in_or_app. now left.
Qed.

Lemma slice_from_incl s a : incl (slice_from s a) s.
Proof.
  unfold slice_from. intros c Hc.
  rewrite <- (firstn_skipn a s). apply in_or_app. now right.
Qed.

Lemma single_spaces_no_nl : forall s, single_spaces s = true -> no_nl s = true.
Proof.
  induction s as [|c t IH]; intros H; [reflexivity|].
  cbn [single_spaces] in H. apply andb_true_iff in H. destruct H as [H1 H2].
  unfold no_nl. cbn [forallb]. fold (no_nl t). rewrite (IH H2), andb_true_r.
  apply negb_true_iff. destruct (Ascii.eqb c nl) eqn:E; [|reflexivity].
  apply Ascii.eqb_eq in E. subst c. rewrite is_space_nl in H1.
  apply andb_true_iff in H1. destruct H1 as [H1 _].
  apply andb_true_iff in H1. destruct H1 as [H1 _]. discriminate.
Qed.

Lemma remove_whitespace_no_nl s : no_nl (remove_whitespace s) = true.
Proof.
  apply single_spaces_no_nl.
  pose proof (remove_whitespace_output s) as (N & _). unfold normalized in N.
  now apply andb_true_iff in N.
Qed.

Lemma spans_text s lo ms :
  spans s lo ms -> Forall (fun m => m_text m = slice s (m_start m) (m_end m)) ms.
Proof. induction 1; constructor; auto. Qed.

Lemma splice_no_nl s :
  no_nl s = true ->
  forall subs lo,
    Forall (fun sub => no_nl (snd sub) = true) subs ->
    no_nl (splice s lo subs) = true.
Proof.
  intros Hs. induction subs as [|[[a b] t] subs IH]; intros lo F; cbn [splice].
  - eapply no_nl_incl; [apply slice_from_incl | exact Hs].
  - inversion F as [|? ? Ft Frest]; subst. cbn [snd] in Ft.
    rewrite !no_nl_app, Ft, (IH _ Frest), andb_true_r.
    eapply no_nl_incl; [apply slice_incl | exact Hs].
Qed.

Lemma remove_redundant_variables_no_nl s :
  no_nl s = true -> no_nl (remove_redundant_variables s) = true.
Proof.
  intros Hs. rewrite remove_redundant_variables_splice.
  apply splice_no_nl; [exact Hs|].
  pose proof (spans_text (finditer_spans var_decl_pattern s)) as Ft.
  rewrite Forall_forall in Ft.
  apply Forall_forall. intros sub Hsub. apply in_map_iff in Hsub.
  destruct Hsub as [m [<- Hm]]. unfold with_text. cbn [snd]. unfold first_text.
  destruct (find (same_key m) (finditer var_decl_pattern s)) as [m'|] eqn:E.
  - apply find_some in E. destruct E as [Hin _]. rewrite (Ft _ Hin).
    eapply no_nl_incl; [apply slice_incl | exact Hs].
  - rewrite (Ft _ Hm). eapply no_nl_incl; [apply slice_incl | exact Hs].
Qed.

(** Captured groups are made of characters of the text. *)

Lemma suffix_incl (a b : str) : suffix_of a b -> incl a b.
Proof. intros [w ->] c Hc. apply in_or_app. now right. Qed.

Lemma caps_from_text_refl st : caps_from_text st st.
Proof. exists []. split; [reflexivity | constructor]. Qed.

Lemma caps_from_text_trans a b c :
  suffix_of (ms_rest b) (ms_rest a) ->
  caps_from_text a b -> caps_from_text b c -> caps_from_text a c.
Proof.
  intros Hs [e1 [H1 F1]] [e2 [H2 F2]]. exists (e2 ++ e1). split.
  - now rewrite H2, H1, app_assoc.
  - apply Forall_app. split; [|exact F1].
    eapply Forall_impl; [|exact F2]. intros p Hp.
    eapply incl_tran; [exact Hp | now apply suffix_incl].
Qed.

Lemma star_iter_caps_text (step : mstate -> list mstate) :
  (forall x y, In y (step x) -> suffix_of (ms_rest y) (ms_rest x)) ->
  (forall x y, In y (step x) -> caps_from_text x y) ->
  forall fuel st st', In st' (star_iter step fuel st) -> caps_from_text st st'.
Proof.
  intros Hsuf Hstep. induction fuel as [|f IH]; intros st st' Hin;
    cbn [star_iter] in Hin.
  - destruct Hin as [<- | []]. apply caps_from_text_refl.
  - apply in_app_or in Hin. destruct Hin as [Hin | [<- | []]].
    + apply in_flat_map in Hin. destruct Hin as [mid [Hmid Hin]].
      destruct (length (ms_rest mid) <? length (ms_rest st)); [|destruct Hin].
      eapply caps_from_text_trans; [apply Hsuf, Hmid | apply Hstep, Hmid
                                   | apply IH, Hin].
    + apply caps_from_text_refl.
Qed.

Lemma rmatch_caps_text (r : regex) :
  forall st st', In st' (rmatch r st) -> caps_from_text st st'.
Proof.
  induction r as [|cs|a IHa b IHb|a IHa b IHb|a IHa|i a IHa| | |];
    intros st st' Hin.
  - destruct Hin as [<- | []]. apply caps_from_text_refl.
  - rewrite rmatch_chr in Hin. destruct (ms_rest st) as [|c t]; [destruct Hin|].
    destruct (in_cset cs c); [|destruct Hin].
    destruct Hin as [<- | []]. exists []. split; [reflexivity | constructor].
  - rewrite rmatch_seq in Hin. apply in_flat_map in Hin.
    destruct Hin as [mid [Hmid Hin]].
    eapply caps_from_text_trans;
      [apply (rmatch_suffix _ _ _ Hmid) | apply IHa, Hmid | apply IHb, Hin].
  - rewrite rmatch_alt in Hin. apply in_app_or in Hin. destruct Hin; auto.
  - eapply star_iter_caps_text; [apply rmatch_suffix | apply IHa | exact Hin].
  - rewrite rmatch_grp in Hin. apply in_map_iff in Hin.
    destruct Hin as [x [<- Hx]]. destruct (IHa _ _ Hx) as [e [He Fe]].
    exists ((i, firstn (length (ms_rest st) - length (ms_rest x)) (ms_rest st)) :: e).
    split.
    + cbn [ms_caps app]. now rewrite He.
    + constructor; [|exact Fe]. cbn [snd]. intros c Hc.
      rewrite <- (firstn_skipn (length (ms_rest st) - length (ms_rest x))
                               (ms_rest st)).
      apply in_or_app. now left.
  - rewrite rmatch_bol in Hin. destruct (ms_prev st); [destruct Hin|].
    destruct Hin as [<- | []]. apply caps_from_text_refl.
  - rewrite rmatch_eol in Hin. destruct (ms_rest st) as [|c [|d t]].
    + destruct Hin as [<- | []]. apply caps_from_text_refl.
    + destruct (Ascii.eqb c nl); [|destruct Hin].
      destruct Hin as [<- | []]. apply caps_from_text_refl.
    + destruct Hin.
  - rewrite rmatch_wordb in Hin. destruct (at_boundary st); [|destruct Hin].
    destruct Hin as [<- | []]. apply caps_from_text_refl.
Qed.

Lemma lookup_cap_incl i (t : str) caps :
  Forall (fun p : nat * str => incl (snd p) t) caps -> incl (lookup_cap i caps) t.
Proof.
  induction 1 as [|[j v] caps Hv _ IH]; cbn [lookup_cap].
  - intros c [].
  - destruct (i =? j); [exact Hv | exact IH].
Qed.

Lemma scan_groups_text (r : regex) (s : str) :
  forall fuel adv prev pos rest,
    suffix_of rest s ->
    Forall (fun m => forall i, incl (group m i) s) (scan r fuel adv prev pos rest).
Proof.
  induction fuel as [|f IH]; intros adv prev pos rest Hs; cbn [scan].
  - constructor.
  - destruct (match_here r adv prev rest) as [st'|] eqn:E.
    + pose proof (match_here_suffix _ _ _ _ E) as Hs'.
      unfold match_here in E. apply find_some in E. destruct E as [E _].
      apply rmatch_caps_text in E. destruct E as [extra [Hc Fe]].
      cbn [ms_caps ms_rest] in Hc, Fe. rewrite app_nil_r in Hc.
      constructor.
      * intros i. unfold group. cbn [m_caps]. rewrite Hc.
        eapply incl_tran; [apply lookup_cap_incl, Fe | now apply suffix_incl].
      * apply IH. eapply suffix_trans; eauto.
    + destruct rest as [|c t]; [constructor|].
      apply IH. eapply suffix_trans; [|exact Hs]. now exists [c].
Qed.

Lemma finditer_groups_text r s :
  Forall (fun m => forall i, incl (group m i) s) (finditer r s).
Proof. apply scan_groups_text, suffix_refl. Qed.

(** Word characters are not whitespace. *)
Lemma is_word_not_space c : is_word c = true -> is_space c = false.
Proof.
  destruct c as [b0 b1 b2 b3 b4 b5 b6 b7].
  destruct b0, b1, b2, b3, b4, b5, b6, b7; vm_compute; congruence.
Qed.

Lemma runs_elements :
  forall ms g, In g (runs ms) -> g <> [] /\ incl g ms.
Proof.
  induction ms as [|m ms IH]; intros g Hg; [destruct Hg|].
  cbn [runs] in Hg.
  destruct (runs ms) as [|[|m' g'] gs] eqn:E.
  - destruct Hg as [<- | []]. split; [discriminate|].
    intros x [<- | []]. now left.
  - destruct Hg as [<- | []]. split; [discriminate|].
    intros x [<- | []]. now left.
  - destruct (str_eqb (group m 1) (group m' 1)).
    + destruct Hg as [<- | Hg].
      * split; [discriminate|].
        destruct (IH (m' :: g') (or_introl eq_refl)) as [_ Hi].
        intros x [<- | Hx]; [now left | right; now apply Hi].
      * destruct (IH g (or_intror Hg)) as [Hne Hi].
        split; [exact Hne|]. intros x Hx. right. now apply Hi.
    + destruct Hg as [<- | Hg].
      * split; [discriminate|]. intros x [<- | []]. now left.
      * destruct (IH g Hg) as [Hne Hi].
        split; [exact Hne|]. intros x Hx. right. now apply Hi.
Qed.

Lemma no_nl_join sep :
  no_nl sep = true ->
  forall l, Forall (fun x => no_nl x = true) l -> no_nl (join sep l) = true.
Proof.
  intros Hsep. induction l as [|x l IH]; intros F; [reflexivity|].
  inversion F as [|? ? Hx Fl]; subst.
  destruct l as [|y l]; [exact Hx|].
  change (join sep (x :: y :: l)) with (x ++ sep ++ join sep (y :: l)).
  now rewrite !no_nl_app, Hx, Hsep, (IH Fl).
Qed.

Lemma no_nl_concat :
  forall l, Forall (fun x => no_nl x = true) l -> no_nl (concat l) = true.
Proof.
  induction 1 as [|x l Hx _ IH]; [reflexivity|].
  cbn [concat]. now rewrite no_nl_app, Hx, IH.
Qed.

Lemma merged_decl_shape (ms g : list rmatch_obj) :
  Forall (fun m => group m 1 <> []) ms ->
  Forall (fun m => Forall (fun c => is_word c = true) (group m 1)) ms ->
  Forall (fun m => forall i, no_nl (group m i) = true) ms ->
  g <> [] -> incl g ms ->
  no_nl (merged_decl g) = true /\ hd_space (merged_decl g) = false
  /\ merged_decl g <> [].
Proof.
  rewrite !Forall_forall. intros Hne Hw Hn Hg Hi.
  destruct g as [|m g]; [congruence|].
  assert (Hm : In m ms) by (apply Hi; now left).
  unfold merged_decl. repeat split.
  - rewrite !no_nl_app, (Hn m Hm 1).
    change (no_nl (L " ")) with true. change (no_nl (L ";")) with true.
    rewrite andb_true_r. cbn [andb].
    apply andb_true_iff. split.
    + apply no_nl_join; [reflexivity|].
      apply Forall_forall. intros x Hx. apply in_map_iff in Hx.
      destruct Hx as [y [<- Hy]]. apply Hn. now apply Hi.
    + unfold sizes_part. rewrite no_nl_app, (Hn m Hm 3). cbn [andb].
      apply no_nl_concat. apply Forall_forall. intros x Hx.
      apply in_map_iff in Hx. destruct Hx as [y [<- Hy]].
      assert (Hy' : In y ms) by (apply Hi; now right).
      pose proof (Hn y Hy' 3) as H3.
      destruct (group y 3) as [|c sz]; [reflexivity|].
      rewrite no_nl_app. now rewrite H3.
  - pose proof (Hne m Hm) as H1. pose proof (Hw m Hm) as H2.
    destruct (group m 1) as [|c t]; [congruence|].
    inversion H2 as [|? ? Hc _]; subst. cbn [app hd_space].
    now apply is_word_not_space.
  - pose proof (Hne m Hm) as H1.
    destruct (group m 1) as [|c t]; [congruence|]. discriminate.
Qed.

Lemma calm_of_no_nl : forall s, no_nl s = true -> calm s = true.
Proof.
  induction s as [|c t IH]; intros H; [reflexivity|].
  unfold no_nl in H. cbn [forallb] in H. fold (no_nl t) in H.
  apply andb_true_iff in H. destruct H as [H1 H2].
  apply negb_true_iff in H1. cbn [calm]. now rewrite H1, IH.
Qed.

Lemma calm_app_no_nl :
  forall a b, no_nl a = true -> calm (a ++ b) = calm b.
Proof.
  induction a as [|c t IH]; intros b H; [reflexivity|].
  unfold no_nl in H. cbn [forallb] in H. fold (no_nl t) in H.
  apply andb_true_iff in H. destruct H as [H1 H2].
  apply negb_true_iff in H1. cbn [app calm]. now rewrite H1, IH.
Qed.

Lemma calm_nl Y : calm (nl :: Y) = negb (nl_ahead Y) && calm Y.
Proof. cbn [calm]. now rewrite Ascii.eqb_refl. Qed.

Lemma nl_ahead_no_space t : hd_space t = false -> nl_ahead t = false.
Proof. destruct t as [|c t]; [reflexivity|]. cbn [hd_space nl_ahead]. now intros ->. Qed.

Lemma nl_ahead_no_nl : forall t, no_nl t = true -> nl_ahead t = false.
Proof.
  induction t as [|c t IH]; intros H; [reflexivity|].
  unfold no_nl in H. cbn [forallb] in H. fold (no_nl t) in H.
  apply andb_true_iff in H. destruct H as [H1 H2].
  apply negb_true_iff in H1. cbn [nl_ahead]. rewrite H1, (IH H2).
  now rewrite andb_false_r.
Qed.

Lemma hd_space_app d X : d <> [] -> hd_space (d ++ X) = hd_space d.
Proof. destruct d; [congruence | reflexivity]. Qed.

Lemma calm_block (T : str) :
  no_nl T = true ->
  forall ds,
    Forall (fun d => no_nl d = true /\ hd_space d = false /\ d <> []) ds ->
    calm (join [nl] ds ++ nl :: T) = true.
Proof.
  intros HT. induction ds as [|d ds IH]; intros F.
  - cbn [join app]. now rewrite calm_nl, nl_ahead_no_nl, calm_of_no_nl.
  - inversion F as [|? ? (Hd1 & Hd2 & Hd3) Fds]; subst.
    destruct ds as [|d2 ds].
    + cbn [join]. rewrite calm_app_no_nl by exact Hd1.
      now rewrite calm_nl, nl_ahead_no_nl, calm_of_no_nl.
    + change (join [nl] (d :: d2 :: ds)) with (d ++ [nl] ++ join [nl] (d2 :: ds)).
      rewrite <- !app_assoc. rewrite calm_app_no_nl by exact Hd1.
      cbn [app]. rewrite calm_nl, (IH Fds), andb_true_r.
      inversion Fds as [|? ? (H1 & H2 & H3) _]; subst.
      destruct ds as [|d3 ds].
      * cbn [join]. apply negb_true_iff, nl_ahead_no_space.
        now rewrite hd_space_app, H2.
      * change (join [nl] (d2 :: d3 :: ds))
          with (d2 ++ [nl] ++ join [nl] (d3 :: ds)).
        rewrite <- app_assoc. apply negb_true_iff, nl_ahead_no_space.
        now rewrite hd_space_app, H2.
Qed.

Lemma combine_variable_declarations_calm R :
  no_nl R = true -> calm (combine_variable_declarations R) = true.
Proof.
  intros HR. rewrite combine_variable_declarations_groups.
  set (ms := finditer var_decl_pattern R).
  assert (HG : forall lo l, no_nl (gaps R lo l) = true).
  { intros lo l. revert lo. induction l as [|m l IH]; intros lo; [reflexivity|].
    cbn [gaps]. rewrite no_nl_app, IH, andb_true_r.
    eapply no_nl_incl; [apply slice_incl | exact HR]. }
  rewrite calm_app_no_nl by apply HG. cbn [app].
  apply calm_block.
  - eapply no_nl_incl; [apply slice_from_incl | exact HR].
  - apply Forall_forall. intros d Hd. apply in_map_iff in Hd.
    destruct Hd as [g [<- Hg]]. apply runs_elements in Hg. destruct Hg as [Hne Hi].
    apply (@merged_decl_shape ms g); auto.
    + apply var_decl_type_nonempty.
    + apply var_decl_type_word.
    + pose proof (finditer_groups_text var_decl_pattern R) as F.
      eapply Forall_impl; [|exact F]. intros m Hm i.
      eapply no_nl_incl; [apply Hm | exact HR].
Qed.

Lemma flat_map_nil (A B : Type) (f : A -> list B) l :
  (forall x, In x l -> f x = []) -> flat_map f l = [].
Proof.
  induction l as [|x l IH]; intros H; [reflexivity|].
  cbn [flat_map]. rewrite H by now left. apply IH. intros y Hy. apply H. now right.
Qed.

Lemma newline_after_spaces caps :
  forall t p,
    nl_ahead t = false ->
    flat_map (rmatch (Chr (CLit nl))) (run_states CSpace p t caps) = [].
Proof.
  induction t as [|c t IH]; intros p H; cbn [run_states].
  - reflexivity.
  - cbn [nl_ahead] in H. cbn [in_cset].
    assert (Hc : Ascii.eqb c nl = false).
    { destruct (Ascii.eqb c nl) eqn:E; [|reflexivity].
      apply Ascii.eqb_eq in E. subst c.
      rewrite is_space_nl in H. discriminate. }
    rewrite Hc in H. cbn [orb] in H.
    destruct (is_space c).
    + cbn [andb] in H. rewrite flat_map_app, (IH _ H). cbn [flat_map app].
      rewrite rmatch_chr. cbn [ms_rest in_cset]. now rewrite Hc.
    + cbn [flat_map]. rewrite rmatch_chr. cbn [ms_rest in_cset]. now rewrite Hc.
Qed.

Lemma empty_line_hd p rest :
  calm rest = true ->
  hd_error (rmatch empty_line_pattern (MState p rest [])) = None.
Proof.
  intros Hc. unfold empty_line_pattern. cbn [seqs].
  rewrite rmatch_seq_chr. destruct rest as [|c t]; [reflexivity|].
  cbn [in_cset]. cbn [calm] in Hc.
  destruct (Ascii.eqb c nl) eqn:E; [|reflexivity].
  apply andb_true_iff in Hc. destruct Hc as [Hc _].
  apply negb_true_iff in Hc.
  rewrite rmatch_seq. unfold ws. rewrite rmatch_star_chr.
  now rewrite newline_after_spaces.
Qed.

Lemma calm_tail c t : calm (c :: t) = true -> calm t = true.
Proof. cbn [calm]. intros H. now apply andb_true_iff in H. Qed.

Lemma remove_empty_lines_calm :
  forall s, calm s = true -> remove_empty_lines s = s.
Proof.
  intros s. unfold remove_empty_lines. rewrite re_sub_sub_str.
  generalize (@None ascii) as p.
  induction s as [|c t IH]; intros p Hc;
    rewrite sub_str_unfold by apply empty_line_never_empty;
    rewrite empty_line_hd by exact Hc.
  - reflexivity.
  - f_equal. apply IH. eapply calm_tail; eauto.
Qed.

(** X18: in the order of [optimize_shader], blank-line removal changes
    nothing: on the output of the merge stage run after the dedup stage
    on whitespace-normalized text, [remove_empty_lines] returns its
    argument, for every input text. *)
Theorem remove_empty_lines_after_merge (s : str) :
  remove_empty_lines
    (combine_variable_declarations
       (remove_redundant_variables (remove_whitespace s)))
  = combine_variable_declarations
      (remove_redundant_variables (remove_whitespace s)).
Proof.
  apply remove_empty_lines_calm, combine_variable_declarations_calm,
    remove_redundant_variables_no_nl, remove_whitespace_no_nl.
Qed.

Lemma empty_line_consumes p s st' :
  In st' (rmatch empty_line_pattern (MState p s [])) ->
  length (ms_rest st') + 2 <= length s.
Proof.
  unfold empty_line_pattern. cbn [seqs]. rewrite rmatch_seq_chr.
  destruct s as [|c t]; [intros []|].
  destruct (in_cset (CLit nl) c); [|intros []].
  rewrite rmatch_seq. intros H. apply in_flat_map in H.
  destruct H as [mid [Hmid H]].
  apply rmatch_suffix, suffix_length in Hmid. cbn [ms_rest] in Hmid.
  rewrite rmatch_chr in H. destruct (ms_rest mid) as [|d u]; [destruct H|].
  destruct (in_cset (CLit nl) d); [|destruct H].
  destruct H as [<- | []]. cbn [ms_rest length] in *. lia.
Qed.

Lemma newline_after_spaces_found caps :
  forall t p,
    nl_ahead t = true ->
    flat_map (rmatch (Chr (CLit nl))) (run_states CSpace p t caps) <> [].
Proof.
  induction t as [|c t IH]; intros p H; cbn [nl_ahead] in H; [discriminate|].
  apply andb_true_iff in H. destruct H as [Hs H].
  cbn [run_states in_cset]. rewrite Hs. rewrite flat_map_app.
  apply orb_true_iff in H. destruct H as [H|H].
  - cbn [flat_map]. rewrite rmatch_chr. cbn [ms_rest in_cset]. rewrite H.
    intros E. apply app_eq_nil in E. destruct E as [_ E]. discriminate.
  - intros E. apply app_eq_nil in E. destruct E as [E _]. now apply IH in E.
Qed.

Lemma empty_line_sub_length :
  forall n s p,
    length s <= n ->
    length (sub_str empty_line_pattern [nl] p s) <= length s.
Proof.
  induction n as [|n IH]; intros s p Hn;
    rewrite sub_str_unfold by apply empty_line_never_empty.
  - destruct s; [|cbn [length] in Hn; lia].
    destruct (hd_error _) as [st'|] eqn:E; [|cbn [length]; lia].
    exfalso. assert (Hin : In st' (rmatch empty_line_pattern (MState p [] []))).
    { destruct (rmatch empty_line_pattern (MState p [] [])); [discriminate|].
      injection E as ->. now left. }
    apply empty_line_consumes in Hin. cbn [length] in Hin. lia.
  - destruct (hd_error _) as [st'|] eqn:E.
    + assert (Hin : In st' (rmatch empty_line_pattern (MState p s []))).
      { destruct (rmatch empty_line_pattern (MState p s [])); [discriminate|].
        injection E as ->. now left. }
      apply empty_line_consumes in Hin. cbn [app length].
      specialize (IH (ms_rest st') (ms_prev st')). lia.
    + destruct s as [|c t]; [cbn [length]; lia|]. cbn [length] in *.
      specialize (IH t (Some c)). lia.
Qed.

Lemma empty_line_sub_shrinks :
  forall s p,
    calm s = false ->
    length (sub_str empty_line_pattern [nl] p s) < length s.
Proof.
  induction s as [|c t IH]; intros p Hc; [discriminate|].
  rewrite sub_str_unfold by apply empty_line_never_empty.
  destruct (hd_error _) as [st'|] eqn:E.
  - assert (Hin : In st' (rmatch empty_line_pattern (MState p (c :: t) []))).
    { destruct (rmatch empty_line_pattern (MState p (c :: t) []));
        [discriminate|]. injection E as ->. now left. }
    apply empty_line_consumes in Hin. cbn [app length] in *.
    pose proof (@empty_line_sub_length (length (ms_rest st')) (ms_rest st')
                  (ms_prev st') (le_n _)). lia.
  - cbn [length]. apply -> Nat.succ_lt_mono. apply IH.
    cbn [calm] in Hc. apply andb_false_iff in Hc.
    destruct Hc as [Hc|Hc]; [|exact Hc]. exfalso.
    destruct (Ascii.eqb c nl) eqn:Ec; [|discriminate].
    apply negb_false_iff in Hc.
    unfold empty_line_pattern in E. cbn [seqs] in E.
    rewrite rmatch_seq_chr in E. cbn [in_cset] in E. rewrite Ec in E.
    rewrite rmatch_seq in E. unfold ws in E. rewrite rmatch_star_chr in E.
    pose proof (@newline_after_spaces_found [] t (Some c) Hc) as Hf.
    destruct (flat_map _ _); [congruence | discriminate].
Qed.

(** X19: [remove_empty_lines] returns a text unchanged exactly when the
    text has no blank line, that is when no newline is followed, after
    whitespace only, by another newline. *)
Theorem remove_empty_lines_fixed_points (s : str) :
  remove_empty_lines s = s <-> calm s = true.
Proof.
  split.
  - intros H. destruct (calm s) eqn:E; [reflexivity|]. exfalso.
    unfold remove_empty_lines in H. rewrite re_sub_sub_str in H.
    pose proof (empty_line_sub_shrinks s None E) as Hl. rewrite H in Hl. lia.
  - apply remove_empty_lines_calm.
Qed.

Lemma texture_stage_copies s : optimize_texture_lookups s = s.
Proof.
  unfold optimize_texture_lookups.
  pose proof (@texture_loop_copies s (finditer texture_pattern s) 0
                (finditer_spans _ _)) as H.
  change (slice s 0 0) with (@nil ascii) in H.
  destruct (texture_loop s (finditer texture_pattern s) [] 0) as [c st].
  cbn [fst snd] in H. rewrite H. apply slice_0_whole.
Qed.

(** X20: two of the nine stages of [optimize_shader] never change its
    text: for every input the result of the nine stages is that of the
    other seven, without [remove_empty_lines] and
    [optimize_texture_lookups]. *)
Theorem run_stages_seven_stages (s : str) :
  run_stages s
  = replace_uniform_variables
      (unroll_loops
         (inline_functions
            (combine_variable_declarations
               (remove_redundant_variables
                  (remove_whitespace (remove_comments s)))))).
Proof.
  unfold run_stages.
  rewrite texture_stage_copies.
  rewrite (@remove_empty_lines_calm
             (combine_variable_declarations
                (remove_redundant_variables
                   (remove_whitespace (remove_comments s)))));
    [reflexivity|].
  apply combine_variable_declarations_calm, remove_redundant_variables_no_nl,
    remove_whitespace_no_nl.
Qed.

(** ** The braces of an extracted body *)

Lemma close_index_balance :
  forall rest d i,
    (0 < d)%Z ->
    match close_index d i rest with
    | Some j => brace_balance (firstn (j - i + 1) rest) = (- d)%Z
    | None => (- d < brace_balance rest)%Z
    end.
Proof.
  induction rest as [|c t IH]; intros d i Hd; cbn [close_index].
  - cbn [brace_balance]. lia.
  - set (k := (if Ascii.eqb c "{" then 1 else if Ascii.eqb c "}" then -1 else 0)%Z).
    replace (if Ascii.eqb c "{" then (d + 1)%Z
             else if Ascii.eqb c "}" then (d - 1)%Z else d) with (d + k)%Z
      by (subst k; destruct (Ascii.eqb c "{"), (Ascii.eqb c "}"); lia).
    assert (Hk : (-1 <= k <= 1)%Z)
      by (subst k; destruct (Ascii.eqb c "{"), (Ascii.eqb c "}"); lia).
    destruct (d + k =? 0)%Z eqn:E.
    + apply Z.eqb_eq in E. replace (i - i + 1) with 1 by lia.
      cbn [firstn brace_balance]. fold k. lia.
    + apply Z.eqb_neq in E.
      assert (Hd' : (0 < d + k)%Z) by lia.
      specialize (IH (d + k)%Z (i + 1) Hd').
      destruct (close_index (d + k) (i + 1) t) as [j|] eqn:Ej.
      * assert (Hij : i + 1 <= j).
        { clear IH. revert Ej. generalize (d + k)%Z (i + 1). clear.
          induction t as [|c t IHt]; intros z n H; cbn [close_index] in H;
            [discriminate|].
          destruct (_ =? 0)%Z; [injection H as <-; lia|].
          apply IHt in H. lia. }
        replace (j - i + 1) with (S (j - (i + 1) + 1)) by lia.
        cbn [firstn brace_balance]. fold k. lia.
      * cbn [brace_balance]. fold k. lia.
Qed.

(** X21: the braces of the text returned by the scanner: when the scan
    finds the closing brace, the returned text has exactly one more
    closing brace than opening braces; when it does not, the returned
    text has at least as many opening braces as closing ones. *)
Theorem find_function_body_balance (s : str) (off : nat) :
  match close_index 1 off (slice_from s off) with
  | Some _ => brace_balance (find_function_body s off) = (-1)%Z
  | None => (0 <= brace_balance (find_function_body s off))%Z
  end.
Proof.
  rewrite find_function_body_close.
  assert (Hd : (0 < 1)%Z) by lia.
  pose proof (close_index_balance (slice_from s off) off Hd) as H.
  destruct (close_index 1 off (slice_from s off)) as [j|] eqn:E.
  - unfold slice. unfold slice_from in H.
    replace (j + 1 - off) with (j - off + 1); [exact H|].
    destruct (close_index_brace _ _ Hd E). lia.
  - lia.
Qed.
